(** * Fresh & Clean Laundry: the page behaviour script (script.js)

    A shallow embedding of the interactive layer of the landing page:
    smooth scrolling, the mobile menu, lazy images, the scroll-to-top
    button, form validation and the keyboard helpers, together with the
    properties the specification states about them.

    Conventions.
    - A JavaScript string that is inspected character by character (a
      field value) is a list of UTF-16 code units; class names, attribute
      values, selectors and messages, which the script only compares and
      stores, are [string]s.
    - The document is a record [World] holding the elements the script's
      fixed selectors resolve to, and the host effects that cannot be
      undone (console, scroll requests, history, focus, timers).
    - A function of the script is a computation [M A]: it takes the world
      and gives a completion ([Normal] or [Throw]) and the new world.
      Dereferencing [null] throws a TypeError, as it does in the browser.
    - The elements the fixed selectors of the script resolve to (the
      navigation, the menu toggle, the scroll-to-top button, the form) are
      distinct nodes, and the parent elements of the form fields do not
      contain one another; several fields may share a parent.
    - Scroll offsets and positions the script reads are rational numbers
      (every finite double is one). The script adds and subtracts them in
      double arithmetic, which rounds: a number it computes is kept as
      the expression it evaluated. Time is not modelled: a timer is its
      delay and its callback. *)

From Stdlib Require Import List String Ascii Bool Arith NArith ZArith QArith Lia.
Import ListNotations.

Local Close Scope Q_scope.
Local Open Scope string_scope.
Local Open Scope list_scope.

Set Implicit Arguments.

(* String comparisons are left folded when definitions are simplified. *)
Arguments String.eqb : simpl never.
Arguments String.prefix : simpl never.

(* ================================================================== *)
(** * JavaScript strings *)
(* ================================================================== *)

Module JsString.

(** A string value: the sequence of its UTF-16 code units. *)
Definition t := list N.

Definition ofString (s : string) : t := map N_of_ascii (list_ascii_of_string s).

(** WhiteSpace and LineTerminator of ECMAScript: what
    [String.prototype.trim] strips and what [\s] matches. *)
Definition isWhiteSpace (c : N) : bool :=
  ((9 <=? c) && (c <=? 13)          (* TAB LF VT FF CR *)
   || (c =? 32)                      (* SPACE *)
   || (c =? 160)                     (* NO-BREAK SPACE *)
   || (c =? 5760)                    (* U+1680 *)
   || ((8192 <=? c) && (c <=? 8202)) (* U+2000 .. U+200A *)
   || (c =? 8232) || (c =? 8233)     (* U+2028 U+2029 *)
   || (c =? 8239)                    (* U+202F *)
   || (c =? 8287)                    (* U+205F *)
   || (c =? 12288)                   (* U+3000 *)
   || (c =? 65279))%N.               (* U+FEFF *)

Fixpoint trimStart (s : t) : t :=
  match s with
  | [] => []
  | c :: s' => if isWhiteSpace c then trimStart s' else s
  end.

Definition trimEnd (s : t) : t := rev (trimStart (rev s)).

(** [s.trim()] *)
Definition trim (s : t) : t := trimEnd (trimStart s).

(** Truthiness of a string: the empty string is falsy. *)
Definition truthy (s : t) : bool :=
  match s with [] => false | _ :: _ => true end.

End JsString.

(* ================================================================== *)
(** * Regular expressions *)
(* ================================================================== *)

(** The two patterns of the script use character classes, concatenation
    and [+] between the anchors [^] and [$] (no flags), so [test] decides
    whether the whole string belongs to the language of the pattern. *)

Module RegExp.

Inductive t : Type :=
| Void                       (* matches nothing *)
| Eps                        (* the empty string *)
| Class (p : N -> bool)      (* one code unit of a class *)
| Cat (r1 r2 : t)
| Alt (r1 r2 : t)
| Star (r : t).

(** [r+] *)
Definition Plus (r : t) : t := Cat r (Star r).

Fixpoint nullable (r : t) : bool :=
  match r with
  | Void => false
  | Eps => true
  | Class _ => false
  | Cat r1 r2 => nullable r1 && nullable r2
  | Alt r1 r2 => nullable r1 || nullable r2
  | Star _ => true
  end.

Fixpoint deriv (c : N) (r : t) : t :=
  match r with
  | Void => Void
  | Eps => Void
  | Class p => if p c then Eps else Void
  | Cat r1 r2 =>
      if nullable r1
      then Alt (Cat (deriv c r1) r2) (deriv c r2)
      else Cat (deriv c r1) r2
  | Alt r1 r2 => Alt (deriv c r1) (deriv c r2)
  | Star r1 => Cat (deriv c r1) (Star r1)
  end.

(** [/^r$/.test(s)] *)
Fixpoint test (r : t) (s : JsString.t) : bool :=
  match s with
  | [] => nullable r
  | c :: s' => test (deriv c r) s'
  end.

(** The language of a pattern. *)
Inductive denotes : t -> JsString.t -> Prop :=
| DEps : denotes Eps []
| DClass p c : p c = true -> denotes (Class p) [c]
| DCat r1 r2 s1 s2 : denotes r1 s1 -> denotes r2 s2 -> denotes (Cat r1 r2) (s1 ++ s2)
| DAltL r1 r2 s : denotes r1 s -> denotes (Alt r1 r2) s
| DAltR r1 r2 s : denotes r2 s -> denotes (Alt r1 r2) s
| DStarNil r : denotes (Star r) []
| DStarApp r s1 s2 : denotes r s1 -> denotes (Star r) s2 -> denotes (Star r) (s1 ++ s2).

End RegExp.

(* ================================================================== *)
(** * Elements: class lists and attributes *)
(* ================================================================== *)

Module Dom.

(** An element as the script sees it: its [classList] (a DOMTokenList,
    an ordered set of tokens) and its other attributes in order. *)
Record Element : Type := mkElement {
  classList : list string;
  attributes : list (string * string)
}.

(** [classList.contains(c)] *)
Definition contains (c : string) (cl : list string) : bool :=
  existsb (String.eqb c) cl.

(** [classList.add(c)]: appends the token unless it is present. *)
Definition add (c : string) (cl : list string) : list string :=
  if contains c cl then cl else cl ++ [c].

(** [classList.remove(c)] *)
Definition remove (c : string) (cl : list string) : list string :=
  filter (fun x => negb (String.eqb c x)) cl.

(** [getAttribute(k)]: [None] is JavaScript's [null]. *)
Fixpoint getAttribute (k : string) (attrs : list (string * string)) : option string :=
  match attrs with
  | [] => None
  | (k', v) :: rest => if String.eqb k k' then Some v else getAttribute k rest
  end.

Definition hasAttribute (k : string) (attrs : list (string * string)) : bool :=
  match getAttribute k attrs with Some _ => true | None => false end.

(** [setAttribute(k, v)]: changes the value in place, or appends. *)
Fixpoint setAttribute (k v : string) (attrs : list (string * string))
  : list (string * string) :=
  match attrs with
  | [] => [(k, v)]
  | (k', v') :: rest =>
      if String.eqb k k' then (k, v) :: rest else (k', v') :: setAttribute k v rest
  end.

(** [removeAttribute(k)] *)
Definition removeAttribute (k : string) (attrs : list (string * string))
  : list (string * string) :=
  filter (fun kv => negb (String.eqb k (fst kv))) attrs.

Definition addClass (c : string) (e : Element) : Element :=
  mkElement (add c (classList e)) (attributes e).

Definition removeClass (c : string) (e : Element) : Element :=
  mkElement (remove c (classList e)) (attributes e).

Definition hasClass (c : string) (e : Element) : bool :=
  contains c (classList e).

Definition setAttr (k v : string) (e : Element) : Element :=
  mkElement (classList e) (setAttribute k v (attributes e)).

Definition removeAttr (k : string) (e : Element) : Element :=
  mkElement (classList e) (removeAttribute k (attributes e)).

Definition getAttr (k : string) (e : Element) : option string :=
  getAttribute k (attributes e).

End Dom.

(* ================================================================== *)
(** * Configuration and constants *)
(* ================================================================== *)

Module CONFIG.
Definition SCROLL_OFFSET : Z := 80.
Definition SCROLL_TO_TOP_THRESHOLD : Z := 300.
Definition MOBILE_BREAKPOINT : Z := 768.
Definition DEBOUNCE_DELAY : Z := 150.
End CONFIG.

Module CLASSES.
Definition MOBILE_MENU_OPEN := "mobile-menu-open".
Definition SCROLL_TO_TOP_VISIBLE := "visible".
Definition LAZY_LOADED := "lazy-loaded".
Definition FORM_ERROR := "error".
Definition FORM_SUCCESS := "success".
End CLASSES.

(* ================================================================== *)
(** * The world the script runs in *)
(* ================================================================== *)

Inductive JsError : Type :=
| TypeError (msg : string)
| SyntaxError (msg : string)
| NotFoundError (msg : string).

Inductive LogEntry : Type :=
| ConsoleError (context : string) (error : JsError)
| ConsoleLog (msg : string).

(** Numbers the script computes. *)
Module JsNumber.

(** A number read from the page is a value. [a + b] and [a - b] are the
    sum and the difference of IEEE 754 doubles, the nearest double to the
    exact result and not always the exact result ([0.1 + 0.2] is not
    [0.3]): they are kept as written, operand by operand. *)
Inductive t : Type :=
| Val (q : Q)
| Add (a b : t)
| Sub (a b : t).

End JsNumber.

(** Host effects a handler can request and that stay requested. *)
Inductive Effect : Type :=
| PreventDefault
| ScrollTo (top : JsNumber.t)
| PushState (url : string)
| Focus (target : nat).

Inductive Handler : Type :=
| HInitializeFeatures
| HSmoothScroll
| HToggleMobileMenu
| HOutsideClick
| HEscapeKey
| HResize
| HScrollToTop
| HScroll
| HFormSubmit
| HValidateField
| HClearFieldError
| HSkipLink
| HDebounced (h : Handler) (wait : Z).

Inductive Target : Type :=
| TDocument
| TWindow
| TNavLink (i : nat)
| TMenuToggle
| TScrollButton
| TForm
| TField (i : nat)
| TSkipLink.

Record Listener : Type := mkListener {
  listenerTarget : Target;
  listenerEvent : string;
  listenerHandler : Handler
}.

(** What [document.querySelector(sel)] does for a selector read from the
    page: it throws on a selector that is not valid CSS, gives [null], or
    gives an element (a key of the [targets] store). *)
Inductive QueryResult : Type :=
| InvalidSelector
| NoMatch
| Match (id : nat).

Record Link : Type := mkLink { href : option string }.

Record Header : Type := mkHeader {
  offsetHeight : Z;
  (** [header.querySelector('.header-container')]: [None] when absent,
      otherwise whether the navigation is a child of that container. *)
  headerContainer : option bool
}.

(** What the markup and the browser provide and the script only reads. *)
Record Page : Type := mkPage {
  readyStateLoading : bool;
  header : option Header;
  navLinks : list Link;
  resolve : string -> QueryResult;
  targetTop : nat -> Q;
  mainElement : option nat;
  skipLink : bool;
  hasPushState : bool;
  hasIntersectionObserver : bool
}.

Record Viewport : Type := mkViewport {
  pageYOffset : Q;
  scrollTop : Q;
  innerWidth : Z
}.

Inductive ImageListener : Type :=
| OnLoadMark
| OnErrorLog (src : string).

Record Image : Type := mkImage {
  imageClassList : list string;
  src : option string;
  complete : bool;
  imageListeners : list ImageListener
}.

Record Field : Type := mkField {
  value : JsString.t;
  defaultValue : JsString.t;
  type : string;
  fieldElement : Dom.Element;
  parentElement : option nat
}.

Record ErrorNode : Type := mkErrorNode {
  errorRole : option string;
  errorText : string
}.

Record Banner : Type := mkBanner {
  bannerId : nat;
  bannerRole : option string;
  bannerText : string
}.

Record Form : Type := mkForm {
  formClassList : list string;
  fields : list Field;
  (** the [.field-error] descendants of each field parent, in document
      order; the parents of different fields are taken not to contain
      one another, so that what [querySelector] finds in one parent and
      what [appendChild] adds to it is not seen through another *)
  fieldErrors : nat -> list ErrorNode;
  (** the [.form-success] descendants of the form, in document order *)
  banners : list Banner
}.

Inductive Callback : Type :=
| FormSuccessTimeout (successElement : nat).

Record Timer : Type := mkTimer {
  delay : Z;
  callback : Callback
}.

Record World : Type := mkWorld {
  page : Page;
  viewport : Viewport;
  nav : option Dom.Element;
  menuToggle : option Dom.Element;
  styles : list string;
  targets : nat -> Dom.Element;
  images : list Image;
  observed : list nat;
  scrollButton : option Dom.Element;
  form : option Form;
  (** [document.querySelectorAll('.service-card, .contact-item')] *)
  cards : list Dom.Element;
  listeners : list Listener;
  console : list LogEntry;
  effects : list Effect;
  timers : list Timer;
  nextId : nat
}.

(** Assignments to the parts of the world the script changes. *)
Definition set_nav (v : option Dom.Element) (w : World) : World :=
  mkWorld (page w) (viewport w) v (menuToggle w) (styles w) (targets w) (images w) (observed w)
          (scrollButton w) (form w) (cards w) (listeners w) (console w) (effects w) (timers w) (nextId w).
Definition set_menuToggle (v : option Dom.Element) (w : World) : World :=
  mkWorld (page w) (viewport w) (nav w) v (styles w) (targets w) (images w) (observed w)
          (scrollButton w) (form w) (cards w) (listeners w) (console w) (effects w) (timers w) (nextId w).
Definition set_styles (v : list string) (w : World) : World :=
  mkWorld (page w) (viewport w) (nav w) (menuToggle w) v (targets w) (images w) (observed w)
          (scrollButton w) (form w) (cards w) (listeners w) (console w) (effects w) (timers w) (nextId w).
Definition set_targets (v : nat -> Dom.Element) (w : World) : World :=
  mkWorld (page w) (viewport w) (nav w) (menuToggle w) (styles w) v (images w) (observed w)
          (scrollButton w) (form w) (cards w) (listeners w) (console w) (effects w) (timers w) (nextId w).
Definition set_images (v : list Image) (w : World) : World :=
  mkWorld (page w) (viewport w) (nav w) (menuToggle w) (styles w) (targets w) v (observed w)
          (scrollButton w) (form w) (cards w) (listeners w) (console w) (effects w) (timers w) (nextId w).
Definition set_observed (v : list nat) (w : World) : World :=
  mkWorld (page w) (viewport w) (nav w) (menuToggle w) (styles w) (targets w) (images w) v
          (scrollButton w) (form w) (cards w) (listeners w) (console w) (effects w) (timers w) (nextId w).
Definition set_scrollButton (v : option Dom.Element) (w : World) : World :=
  mkWorld (page w) (viewport w) (nav w) (menuToggle w) (styles w) (targets w) (images w) (observed w)
          v (form w) (cards w) (listeners w) (console w) (effects w) (timers w) (nextId w).
Definition set_form (v : option Form) (w : World) : World :=
  mkWorld (page w) (viewport w) (nav w) (menuToggle w) (styles w) (targets w) (images w) (observed w)
          (scrollButton w) v (cards w) (listeners w) (console w) (effects w) (timers w) (nextId w).
Definition set_cards (v : list Dom.Element) (w : World) : World :=
  mkWorld (page w) (viewport w) (nav w) (menuToggle w) (styles w) (targets w) (images w) (observed w)
          (scrollButton w) (form w) v (listeners w) (console w) (effects w) (timers w) (nextId w).
Definition set_listeners (v : list Listener) (w : World) : World :=
  mkWorld (page w) (viewport w) (nav w) (menuToggle w) (styles w) (targets w) (images w) (observed w)
          (scrollButton w) (form w) (cards w) v (console w) (effects w) (timers w) (nextId w).
Definition set_console (v : list LogEntry) (w : World) : World :=
  mkWorld (page w) (viewport w) (nav w) (menuToggle w) (styles w) (targets w) (images w) (observed w)
          (scrollButton w) (form w) (cards w) (listeners w) v (effects w) (timers w) (nextId w).
Definition set_effects (v : list Effect) (w : World) : World :=
  mkWorld (page w) (viewport w) (nav w) (menuToggle w) (styles w) (targets w) (images w) (observed w)
          (scrollButton w) (form w) (cards w) (listeners w) (console w) v (timers w) (nextId w).
Definition set_timers (v : list Timer) (w : World) : World :=
  mkWorld (page w) (viewport w) (nav w) (menuToggle w) (styles w) (targets w) (images w) (observed w)
          (scrollButton w) (form w) (cards w) (listeners w) (console w) (effects w) v (nextId w).
Definition set_nextId (v : nat) (w : World) : World :=
  mkWorld (page w) (viewport w) (nav w) (menuToggle w) (styles w) (targets w) (images w) (observed w)
          (scrollButton w) (form w) (cards w) (listeners w) (console w) (effects w) (timers w) v.

(* ================================================================== *)
(** * Computations: state and exceptions *)
(* ================================================================== *)

Inductive Completion (A : Type) : Type :=
| Normal (a : A)
| Throw (e : JsError).

Arguments Normal {A} a.
Arguments Throw {A} e.

Definition M (A : Type) : Type := World -> Completion A * World.

Definition ret {A} (a : A) : M A := fun w => (Normal a, w).

Definition bind {A B} (m : M A) (k : A -> M B) : M B :=
  fun w =>
    match m w with
    | (Normal a, w') => k a w'
    | (Throw e, w') => (Throw e, w')
    end.

Definition throw {A} (e : JsError) : M A := fun w => (Throw e, w).

Definition gets {A} (f : World -> A) : M A := fun w => (Normal (f w), w).

Definition modify (f : World -> World) : M unit := fun w => (Normal tt, f w).

(** [try { body } catch (error) { handler(error) }] *)
Definition tryCatch (body : M unit) (handler : JsError -> M unit) : M unit :=
  fun w =>
    match body w with
    | (Normal a, w') => (Normal a, w')
    | (Throw e, w') => handler e w'
    end.

Declare Scope js_scope.
Delimit Scope js_scope with js.
Notation "x <- m ;; k" := (bind m (fun x => k))
  (at level 61, m at next level, right associativity) : js_scope.
Notation "m ;; k" := (bind m (fun _ => k))
  (at level 61, right associativity) : js_scope.
Local Open Scope js_scope.

(** [list.forEach(f)] *)
Fixpoint forEach {A} (f : A -> M unit) (l : list A) : M unit :=
  match l with
  | [] => ret tt
  | x :: rest => f x ;; forEach f rest
  end.

(** In-place change of the element a reference designates. *)
Fixpoint updateNth {A} (i : nat) (f : A -> A) (l : list A) : list A :=
  match l, i with
  | [], _ => []
  | x :: rest, O => f x :: rest
  | x :: rest, S i' => x :: updateNth i' f rest
  end.

(** The state a computation leaves and the completion it gives. *)
Definition after {A} (m : M A) (w : World) : World := snd (m w).
Definition result {A} (m : M A) (w : World) : Completion A := fst (m w).

(* ================================================================== *)
(** * Utility functions *)
(* ================================================================== *)

(** [getScrollOffset]: the header's height, or the configured fallback. *)
Definition getScrollOffset : M Q :=
  gets (fun w =>
    match header (page w) with
    | Some h => inject_Z (offsetHeight h)
    | None => inject_Z CONFIG.SCROLL_OFFSET
    end).

(** [logError(context, error)] *)
Definition logError (context : string) (error : JsError) : M unit :=
  modify (fun w => set_console (console w ++ [ConsoleError context error]) w).

Definition consoleLog (msg : string) : M unit :=
  modify (fun w => set_console (console w ++ [ConsoleLog msg]) w).

Definition addEventListener (t : Target) (ev : string) (h : Handler) : M unit :=
  modify (fun w => set_listeners (listeners w ++ [mkListener t ev h]) w).

Definition perform (e : Effect) : M unit :=
  modify (fun w => set_effects (effects w ++ [e]) w).

(** [event.preventDefault()] *)
Definition preventDefault : M unit := perform PreventDefault.

(** [document.querySelector(sel)] for a selector taken from the page. *)
Definition querySelector (sel : string) : M (option nat) :=
  fun w =>
    match resolve (page w) sel with
    | InvalidSelector => (Throw (SyntaxError sel), w)
    | NoMatch => (Normal None, w)
    | Match id => (Normal (Some id), w)
    end.

Definition updateTarget (id : nat) (f : Dom.Element -> Dom.Element) : M unit :=
  modify (fun w =>
    set_targets (fun j => if Nat.eqb j id then f (targets w j) else targets w j) w).

(** The transient-tabindex focus pattern of the script:
    [el.setAttribute('tabindex', '-1'); el.focus(); el.removeAttribute('tabindex')]. *)
Definition focusTransiently (id : nat) : M unit :=
  updateTarget id (Dom.setAttr "tabindex" "-1") ;;
  perform (Focus id) ;;
  updateTarget id (Dom.removeAttr "tabindex").

(* ================================================================== *)
(** * Mobile hamburger menu *)
(* ================================================================== *)

(** [addMobileMenuStyles] *)
Definition addMobileMenuStyles : M unit :=
  fun w =>
    if existsb (String.eqb "mobile-menu-styles") (styles w)
    then (Normal tt, w)
    else (Normal tt, set_styles (styles w ++ ["mobile-menu-styles"]) w).

(** [createMobileMenuToggle] *)
Definition createMobileMenuToggle : M Dom.Element :=
  let button :=
    Dom.setAttr "aria-expanded" "false"
      (Dom.setAttr "aria-label" "Toggle navigation menu"
         (Dom.mkElement ["mobile-menu-toggle"] [])) in
  addMobileMenuStyles ;;
  ret button.

(** [openMobileMenu] *)
Definition openMobileMenu : M unit :=
  fun w =>
    match nav w, menuToggle w with
    | Some n, Some t =>
        (Normal tt,
         set_menuToggle
           (Some (Dom.setAttr "aria-expanded" "true"
                    (Dom.addClass CLASSES.MOBILE_MENU_OPEN t)))
           (set_nav (Some (Dom.addClass CLASSES.MOBILE_MENU_OPEN n)) w))
    | _, _ => (Normal tt, w)
    end.

(** [closeMobileMenu] *)
Definition closeMobileMenu : M unit :=
  fun w =>
    match nav w, menuToggle w with
    | Some n, Some t =>
        (Normal tt,
         set_menuToggle
           (Some (Dom.setAttr "aria-expanded" "false"
                    (Dom.removeClass CLASSES.MOBILE_MENU_OPEN t)))
           (set_nav (Some (Dom.removeClass CLASSES.MOBILE_MENU_OPEN n)) w))
    | _, _ => (Normal tt, w)
    end.

(** [toggleMobileMenu] *)
Definition toggleMobileMenu : M unit :=
  tryCatch
    (fun w =>
       match nav w, menuToggle w with
       | Some n, Some _ =>
           if Dom.hasClass CLASSES.MOBILE_MENU_OPEN n
           then closeMobileMenu w
           else openMobileMenu w
       | _, _ => (Normal tt, w)
       end)
    (logError "Mobile menu toggle").

(** A click as [handleOutsideClick] reads it: whether the navigation and
    the toggle contain [event.target]. *)
Record ClickEvent : Type := mkClickEvent {
  navContainsTarget : bool;
  toggleContainsTarget : bool
}.

(** [handleOutsideClick] *)
Definition handleOutsideClick (event : ClickEvent) : M unit :=
  fun w =>
    match nav w, menuToggle w with
    | Some n, Some _ =>
        if negb (Dom.hasClass CLASSES.MOBILE_MENU_OPEN n) then (Normal tt, w)
        else if negb (navContainsTarget event) && negb (toggleContainsTarget event)
             then closeMobileMenu w
             else (Normal tt, w)
    | _, _ => (Normal tt, w)
    end.

Record KeyboardEvent : Type := mkKeyboardEvent {
  key : string;
  keyCode : Z
}.

(** [handleEscapeKey] *)
Definition handleEscapeKey (event : KeyboardEvent) : M unit :=
  if String.eqb (key event) "Escape" || (keyCode event =? 27)%Z
  then closeMobileMenu
  else ret tt.

(** [handleResize] *)
Definition handleResize : M unit :=
  fun w =>
    if (CONFIG.MOBILE_BREAKPOINT <=? innerWidth (viewport w))%Z
    then closeMobileMenu w
    else (Normal tt, w).

(** [initMobileMenu] *)
Definition initMobileMenu : M unit :=
  tryCatch
    (fun w =>
       match header (page w), nav w with
       | Some h, Some _ =>
           ((match menuToggle w with
             | Some _ => ret tt
             | None =>
                 button <- createMobileMenuToggle ;;
                 match headerContainer h with
                 | None =>
                     throw (TypeError "Cannot read properties of null (reading 'insertBefore')")
                 | Some navIsChild =>
                     if navIsChild
                     then modify (set_menuToggle (Some button))
                     else throw (NotFoundError "insertBefore: the reference node is not a child")
                 end
             end) ;;
            addEventListener TMenuToggle "click" HToggleMobileMenu ;;
            addEventListener TDocument "click" HOutsideClick ;;
            addEventListener TDocument "keydown" HEscapeKey ;;
            addEventListener TWindow "resize" (HDebounced HResize CONFIG.DEBOUNCE_DELAY)) w
       | _, _ => (Normal tt, w)
       end)
    (logError "Mobile menu initialization").

(* ================================================================== *)
(** * Smooth scrolling navigation *)
(* ================================================================== *)

(** [initSmoothScrolling] *)
Definition initSmoothScrolling : M unit :=
  tryCatch
    (links <- gets (fun w => navLinks (page w)) ;;
     forEach (fun i => addEventListener (TNavLink i) "click" HSmoothScroll)
             (seq 0 (List.length links)))
    (logError "Smooth scrolling initialization").

(** [handleSmoothScroll], with [this] the link that was clicked. *)
Definition handleSmoothScroll (this : Link) : M unit :=
  tryCatch
    (match href this with
     | None => ret tt
     | Some targetId =>
         if String.eqb targetId "" || negb (String.prefix "#" targetId)
         then ret tt
         else
           targetElement <- querySelector targetId ;;
           match targetElement with
           | None => ret tt
           | Some el =>
               preventDefault ;;
               offset <- getScrollOffset ;;
               top <- gets (fun w => targetTop (page w) el) ;;
               y <- gets (fun w => pageYOffset (viewport w)) ;;
               perform (ScrollTo (JsNumber.Sub
                                    (JsNumber.Add (JsNumber.Val top) (JsNumber.Val y))
                                    (JsNumber.Val offset))) ;;
               pushes <- gets (fun w => hasPushState (page w)) ;;
               (if pushes : bool then perform (PushState targetId) else ret tt) ;;
               closeMobileMenu ;;
               focusTransiently el
           end
     end)
    (logError "Smooth scroll handler").

(* ================================================================== *)
(** * Lazy loading images *)
(* ================================================================== *)

Definition updateImage (i : nat) (f : Image -> Image) : M unit :=
  modify (fun w => set_images (updateNth i f (images w)) w).

Definition addImageListener (l : ImageListener) (img : Image) : Image :=
  mkImage (imageClassList img) (src img) (complete img) (imageListeners img ++ [l]).

Definition markImage (c : string) (img : Image) : Image :=
  mkImage (Dom.add c (imageClassList img)) (src img) (complete img) (imageListeners img).

(** [loadImage(image)], the image given by its position among the lazy
    images of the page. *)
Definition loadImage (i : nat) : M unit :=
  tryCatch
    (fun w =>
       match nth_error (images w) i with
       | None => (Throw (TypeError "Cannot read properties of undefined (reading 'classList')"), w)
       | Some image =>
           if Dom.contains CLASSES.LAZY_LOADED (imageClassList image) then (Normal tt, w)
           else
             match src image with
             | None => (Normal tt, w)
             | Some s =>
                 if String.eqb s "" then (Normal tt, w)
                 else
                   (updateImage i (addImageListener OnLoadMark) ;;
                    updateImage i (addImageListener (OnErrorLog s)) ;;
                    if complete image
                    then updateImage i (markImage CLASSES.LAZY_LOADED)
                    else ret tt) w
             end
       end)
    (logError "Image loading").

Record IntersectionEntry : Type := mkEntry {
  entryTarget : nat;
  isIntersecting : bool
}.

(** [handleImageIntersection(entries, observer)] *)
Definition handleImageIntersection (entries : list IntersectionEntry) : M unit :=
  forEach (fun entry =>
    if isIntersecting entry
    then loadImage (entryTarget entry) ;;
         modify (fun w =>
           set_observed
             (filter (fun j => negb (Nat.eqb j (entryTarget entry))) (observed w)) w)
    else ret tt) entries.

(** [initLazyLoading] *)
Definition initLazyLoading : M unit :=
  tryCatch
    (fun w =>
       let ids := seq 0 (List.length (images w)) in
       match images w with
       | [] => (Normal tt, w)
       | _ :: _ =>
           if hasIntersectionObserver (page w)
           then forEach (fun i => modify (fun w' => set_observed (observed w' ++ [i]) w')) ids w
           else forEach loadImage ids w
       end)
    (logError "Lazy loading initialization").

(** The [load] event of an image: its listeners run in order. *)
Definition fireImageLoad (i : nat) : M unit :=
  fun w =>
    match nth_error (images w) i with
    | None => (Normal tt, w)
    | Some image =>
        forEach (fun l =>
          match l with
          | OnLoadMark => updateImage i (markImage CLASSES.LAZY_LOADED)
          | OnErrorLog _ => ret tt
          end) (imageListeners image) w
    end.

(* ================================================================== *)
(** * Scroll to top button *)
(* ================================================================== *)

(** [addScrollToTopStyles] *)
Definition addScrollToTopStyles : M unit :=
  fun w =>
    if existsb (String.eqb "scroll-to-top-styles") (styles w)
    then (Normal tt, w)
    else (Normal tt, set_styles (styles w ++ ["scroll-to-top-styles"]) w).

(** [createScrollToTopButton] *)
Definition createScrollToTopButton : M Dom.Element :=
  let button :=
    Dom.setAttr "aria-label" "Scroll to top" (Dom.mkElement ["scroll-to-top"] []) in
  addScrollToTopStyles ;;
  ret button.

(** [a > b] on numbers. *)
Definition Qgtb (a b : Q) : bool := negb (Qle_bool a b).

(** [window.pageYOffset || document.documentElement.scrollTop] *)
Definition scrollPosition (v : Viewport) : Q :=
  if Qeq_bool (pageYOffset v) 0 then scrollTop v else pageYOffset v.

(** [handleScroll] *)
Definition handleScroll : M unit :=
  tryCatch
    (fun w =>
       match scrollButton w with
       | None => (Normal tt, w)
       | Some button =>
           if Qgtb (scrollPosition (viewport w)) (inject_Z CONFIG.SCROLL_TO_TOP_THRESHOLD)
           then (Normal tt,
                 set_scrollButton (Some (Dom.addClass CLASSES.SCROLL_TO_TOP_VISIBLE button)) w)
           else (Normal tt,
                 set_scrollButton (Some (Dom.removeClass CLASSES.SCROLL_TO_TOP_VISIBLE button)) w)
       end)
    (logError "Scroll handler").


(** [initScrollToTop] *)
Definition initScrollToTop : M unit :=
  tryCatch
    ((fun w =>
        match scrollButton w with
        | Some _ => (Normal tt, w)
        | None =>
            (button <- createScrollToTopButton ;;
             modify (set_scrollButton (Some button))) w
        end) ;;
     addEventListener TScrollButton "click" HScrollToTop ;;
     addEventListener TWindow "scroll" (HDebounced HScroll CONFIG.DEBOUNCE_DELAY) ;;
     handleScroll)
    (logError "Scroll to top initialization").

(* ================================================================== *)
(** * Contact form validation *)
(* ================================================================== *)

(** The character classes of the two patterns. *)
Definition notSpaceOrAt (c : N) : bool :=
  negb (JsString.isWhiteSpace c || (c =? 64)%N).

Definition isDigit (c : N) : bool := ((48 <=? c) && (c <=? 57))%N.

Definition phoneChar (c : N) : bool :=
  isDigit c || JsString.isWhiteSpace c
  || (c =? 45)%N || (c =? 43)%N || (c =? 40)%N || (c =? 41)%N.

Definition literal (c : N) : RegExp.t := RegExp.Class (N.eqb c).

(** [/^[^\s@]+@[^\s@]+\.[^\s@]+$/] *)
Definition emailRegex : RegExp.t :=
  RegExp.Cat (RegExp.Plus (RegExp.Class notSpaceOrAt))
    (RegExp.Cat (literal 64)
       (RegExp.Cat (RegExp.Plus (RegExp.Class notSpaceOrAt))
          (RegExp.Cat (literal 46)
             (RegExp.Plus (RegExp.Class notSpaceOrAt))))).

(** [/^[\d\s\-\+\(\)]+$/] *)
Definition phoneRegex : RegExp.t := RegExp.Plus (RegExp.Class phoneChar).

Definition getForm : M Form :=
  fun w =>
    match form w with
    | Some f => (Normal f, w)
    | None => (Throw (TypeError "Cannot read properties of null"), w)
    end.

(** The field a reference designates ([event.target], or an entry of
    [form.querySelectorAll('input, textarea')]). *)
Definition getField (i : nat) : M Field :=
  f <- getForm ;;
  match nth_error (fields f) i with
  | Some field => ret field
  | None => throw (TypeError "Cannot read properties of undefined (reading 'value')")
  end.

Definition updateForm (g : Form -> Form) : M unit :=
  modify (fun w => set_form (option_map g (form w)) w).

Definition mapFieldElement (g : Dom.Element -> Dom.Element) (fd : Field) : Field :=
  mkField (value fd) (defaultValue fd) (type fd) (g (fieldElement fd)) (parentElement fd).

Definition updateFieldElement (i : nat) (g : Dom.Element -> Dom.Element) : M unit :=
  updateForm (fun f =>
    mkForm (formClassList f) (updateNth i (mapFieldElement g) (fields f))
           (fieldErrors f) (banners f)).

Definition updateFieldErrors (parent : nat) (g : list ErrorNode -> list ErrorNode) : M unit :=
  updateForm (fun f =>
    mkForm (formClassList f) (fields f)
           (fun q => if Nat.eqb q parent then g (fieldErrors f q) else fieldErrors f q)
           (banners f)).

(** [field.parentElement], about to be dereferenced. *)
Definition getParentElement (field : Field) : M nat :=
  match parentElement field with
  | Some parent => ret parent
  | None => throw (TypeError "Cannot read properties of null (reading 'querySelector')")
  end.

(** [clearFieldError(event)], [event.target] being field [i]. *)
Definition clearFieldError (i : nat) : M unit :=
  field <- getField i ;;
  updateFieldElement i (Dom.removeClass CLASSES.FORM_ERROR) ;;
  updateFieldElement i (Dom.removeAttr "aria-invalid") ;;
  parent <- getParentElement field ;;
  updateFieldErrors parent (fun errs =>
    match errs with
    | [] => []
    | _ :: rest => rest
    end).

(** [showFieldError(field, message)] *)
Definition showFieldError (i : nat) (message : string) : M unit :=
  field <- getField i ;;
  updateFieldElement i (Dom.addClass CLASSES.FORM_ERROR) ;;
  updateFieldElement i (Dom.setAttr "aria-invalid" "true") ;;
  parent <- getParentElement field ;;
  updateFieldErrors parent (fun errs =>
    match errs with
    | [] => [mkErrorNode (Some "alert") message]
    | e :: rest => mkErrorNode (errorRole e) message :: rest
    end).

(** [validateField(event)], [event.target] being field [i]. *)
Definition validateField (i : nat) : M bool :=
  field <- getField i ;;
  let value := JsString.trim (value field) in
  let type := type field in
  let required := Dom.hasAttribute "required" (Dom.attributes (fieldElement field)) in
  clearFieldError i ;;
  if required && negb (JsString.truthy value)
  then showFieldError i "This field is required" ;; ret false
  else if String.eqb type "email" && JsString.truthy value
          && negb (RegExp.test emailRegex value)
  then showFieldError i "Please enter a valid email address" ;; ret false
  else if String.eqb type "tel" && JsString.truthy value
          && negb (RegExp.test phoneRegex value)
  then showFieldError i "Please enter a valid phone number" ;; ret false
  else ret true.

(** The loop of [validateForm] over the inputs, [isValid] so far. *)
Fixpoint validateInputs (inputs : list nat) (isValid : bool) : M bool :=
  match inputs with
  | [] => ret isValid
  | input :: rest =>
      ok <- validateField input ;;
      validateInputs rest (if negb ok then false else isValid)
  end.

(** [validateForm(form)] *)
Definition validateForm : M bool :=
  f <- getForm ;;
  validateInputs (seq 0 (List.length (fields f))) true.


Definition successMessage : string :=
  "Thank you! Your message has been sent successfully.".



Definition setTimeout (c : Callback) (ms : Z) : M unit :=
  modify (fun w => set_timers (timers w ++ [mkTimer ms c]) w).

(** [showFormSuccess(form)] *)
Definition showFormSuccess : M unit :=
  f <- getForm ;;
  updateForm (fun f =>
    mkForm (Dom.add CLASSES.FORM_SUCCESS (formClassList f)) (fields f)
           (fieldErrors f) (banners f)) ;;
  successElement <-
    match banners f with
    | b :: _ => ret (bannerId b)
    | [] =>
        id <- gets nextId ;;
        modify (fun w => set_nextId (S id) w) ;;
        updateForm (fun f =>
          mkForm (formClassList f) (fields f) (fieldErrors f)
                 (mkBanner id (Some "status") successMessage :: banners f)) ;;
        ret id
    end ;;
  setTimeout (FormSuccessTimeout successElement) 5000.

(** [handleFormSubmit(event)], [event.target] being the contact form. *)
Definition handleFormSubmit : M unit :=
  preventDefault ;;
  tryCatch
    (isValid <- validateForm ;;
     if negb isValid then ret tt
     else consoleLog "Form is valid and ready to submit" ;;
          showFormSuccess)
    (logError "Form submit handler").

(** [initFormValidation] *)
Definition initFormValidation : M unit :=
  tryCatch
    (fun w =>
       match form w with
       | None => (Normal tt, w)
       | Some f =>
           (addEventListener TForm "submit" HFormSubmit ;;
            forEach (fun input =>
                       addEventListener (TField input) "blur" HValidateField ;;
                       addEventListener (TField input) "input" HClearFieldError)
                    (seq 0 (List.length (fields f)))) w
       end)
    (logError "Form validation initialization").

(* ================================================================== *)
(** * Keyboard accessibility *)
(* ================================================================== *)

(** [handleSkipLink] *)
Definition handleSkipLink : M unit :=
  preventDefault ;;
  main <- gets (fun w => mainElement (page w)) ;;
  match main with
  | Some el => focusTransiently el
  | None => ret tt
  end.

(** [initKeyboardAccessibility] *)
Definition initKeyboardAccessibility : M unit :=
  tryCatch
    (has <- gets (fun w => skipLink (page w)) ;;
     (if has : bool then addEventListener TSkipLink "click" HSkipLink else ret tt) ;;
     modify (fun w =>
       set_cards
         (map (fun card =>
                 if Dom.hasAttribute "tabindex" (Dom.attributes card)
                 then card
                 else Dom.setAttr "tabindex" "0" card)
              (cards w)) w))
    (logError "Keyboard accessibility initialization").

(* ================================================================== *)
(** * Initialization *)
(* ================================================================== *)

Definition successLog : string :=
  "[Fresh & Clean Laundry] Interactive features initialized successfully".

(** [initializeFeatures] *)
Definition initializeFeatures : M unit :=
  tryCatch
    (initSmoothScrolling ;;
     initMobileMenu ;;
     initLazyLoading ;;
     initScrollToTop ;;
     initFormValidation ;;
     initKeyboardAccessibility ;;
     consoleLog successLog)
    (logError "Feature initialization").

(** [init] *)
Definition init : M unit :=
  tryCatch
    (loading <- gets (fun w => readyStateLoading (page w)) ;;
     if loading : bool
     then addEventListener TDocument "DOMContentLoaded" HInitializeFeatures
     else initializeFeatures)
    (logError "Initialization").

(* ================================================================== *)
(** * Notions the specification uses *)
(* ================================================================== *)

(** The closed state of the mobile menu as the script sets it up
    ([createMobileMenuToggle]) and restores it ([closeMobileMenu]):
    neither the navigation nor the toggle carries the open class and the
    toggle says it is collapsed, [aria-expanded="false"]. *)
Definition menuClosed (w : World) : Prop :=
  exists n t,
    nav w = Some n /\ menuToggle w = Some t /\
    Dom.hasClass CLASSES.MOBILE_MENU_OPEN n = false /\
    Dom.hasClass CLASSES.MOBILE_MENU_OPEN t = false /\
    Dom.getAttr "aria-expanded" t = Some "false".

(** The closed state told by the classes alone: neither the navigation
    nor the toggle carries the open class. A toggle of the markup may be
    in this state with any value of [aria-expanded], or without the
    attribute. *)
Definition menuWithoutOpenClass (w : World) : Prop :=
  exists n t,
    nav w = Some n /\ menuToggle w = Some t /\
    Dom.hasClass CLASSES.MOBILE_MENU_OPEN n = false /\
    Dom.hasClass CLASSES.MOBILE_MENU_OPEN t = false.

(** The three marks of the menu state agree. *)
Definition menuSynchronized (w : World) : Prop :=
  forall n t,
    nav w = Some n -> menuToggle w = Some t ->
    (Dom.hasClass CLASSES.MOBILE_MENU_OPEN n = true <->
     Dom.hasClass CLASSES.MOBILE_MENU_OPEN t = true) /\
    (Dom.hasClass CLASSES.MOBILE_MENU_OPEN n = true <->
     Dom.getAttr "aria-expanded" t = Some "true").

(** The operations that touch the mobile menu once the page is set up. *)
Inductive MenuOperation : Type :=
| OpOpen
| OpClose
| OpToggle
| OpOutsideClick (event : ClickEvent)
| OpEscapeKey (event : KeyboardEvent)
| OpResize (width : Z)
| OpSmoothScroll (link : Link).

Definition set_innerWidth (width : Z) (w : World) : World :=
  mkWorld (page w)
          (mkViewport (pageYOffset (viewport w)) (scrollTop (viewport w)) width)
          (nav w) (menuToggle w) (styles w) (targets w) (images w) (observed w)
          (scrollButton w) (form w) (cards w) (listeners w) (console w) (effects w)
          (timers w) (nextId w).

Definition runMenuOperation (op : MenuOperation) : M unit :=
  match op with
  | OpOpen => openMobileMenu
  | OpClose => closeMobileMenu
  | OpToggle => toggleMobileMenu
  | OpOutsideClick event => handleOutsideClick event
  | OpEscapeKey event => handleEscapeKey event
  | OpResize width => modify (set_innerWidth width) ;; handleResize
  | OpSmoothScroll link => handleSmoothScroll link
  end.

(** A link whose fragment is absent, does not start with [#], or does
    not resolve to an element of the page. *)
Definition unresolvedLink (p : Page) (link : Link) : Prop :=
  match href link with
  | None => True
  | Some targetId =>
      String.prefix "#" targetId = false \/ forall id, resolve p targetId <> Match id
  end.

(** ** Validation as the specification words it *)

Inductive Verdict : Type :=
| RequiredError
| EmailError
| PhoneError
| Valid.

(** [field.hasAttribute('required')] *)
Definition isRequired (fd : Field) : bool :=
  Dom.hasAttribute "required" (Dom.attributes (fieldElement fd)).

(** The rules in order, the first failure winning, on the trimmed value;
    [allowed] is the set of characters a phone number may contain. *)
Definition verdictWith (allowed : N -> bool) (fd : Field) : Verdict :=
  let v := JsString.trim (value fd) in
  if isRequired fd && negb (JsString.truthy v) then RequiredError
  else if String.eqb (type fd) "email" && JsString.truthy v
          && negb (RegExp.test emailRegex v) then EmailError
  else if String.eqb (type fd) "tel" && JsString.truthy v
          && existsb (fun c => negb (allowed c)) v then PhoneError
  else Valid.



(** The rules with the phone characters of the pattern: digits, any white
    space, [+], [-], parentheses. *)
Definition verdict : Field -> Verdict := verdictWith phoneChar.

Definition errorMessage (v : Verdict) : option string :=
  match v with
  | RequiredError => Some "This field is required"
  | EmailError => Some "Please enter a valid email address"
  | PhoneError => Some "Please enter a valid phone number"
  | Valid => None
  end.

Definition fieldOf (w : World) (i : nat) : option Field :=
  match form w with
  | Some f => nth_error (fields f) i
  | None => None
  end.

Definition errorsOf (w : World) (parent : nat) : list ErrorNode :=
  match form w with
  | Some f => fieldErrors f parent
  | None => []
  end.

(** The marks validation takes off a field and puts on it. *)
Definition cleared (e : Dom.Element) : Dom.Element :=
  Dom.removeAttr "aria-invalid" (Dom.removeClass CLASSES.FORM_ERROR e).

Definition flagged (e : Dom.Element) : Dom.Element :=
  Dom.setAttr "aria-invalid" "true" (Dom.addClass CLASSES.FORM_ERROR e).

(** What [showFieldError] does to the error nodes of the parent. *)
Definition showError (message : string) (errs : list ErrorNode) : list ErrorNode :=
  match errs with
  | [] => [mkErrorNode (Some "alert") message]
  | e :: rest => mkErrorNode (errorRole e) message :: rest
  end.

(** The form [f'] is the form [f] after field [i], whose parent is [p],
    was validated with verdict [v]. *)
Definition validated (v : Verdict) (i p : nat) (f f' : Form) : Prop :=
  formClassList f' = formClassList f /\
  banners f' = banners f /\
  fields f' =
    updateNth i
      (mapFieldElement
         (match errorMessage v with
          | None => cleared
          | Some _ => fun e => flagged (cleared e)
          end))
      (fields f) /\
  forall q,
    fieldErrors f' q =
      if Nat.eqb q p
      then match errorMessage v with
           | None => tl (fieldErrors f q)
           | Some message => showError message (tl (fieldErrors f q))
           end
      else fieldErrors f q.

(** Field [i] is marked invalid and the first error node of its parent
    carries the message. *)
Definition errorShown (w : World) (i parent : nat) (message : string) : Prop :=
  exists fd e rest,
    fieldOf w i = Some fd /\
    Dom.hasClass CLASSES.FORM_ERROR (fieldElement fd) = true /\
    Dom.getAttr "aria-invalid" (fieldElement fd) = Some "true" /\
    errorsOf w parent = e :: rest /\ errorText e = message.


(** What validation never changes of a field. *)
Definition fieldData (fd : Field)
  : JsString.t * JsString.t * string * option nat * bool :=
  (value fd, defaultValue fd, type fd, parentElement fd, isRequired fd).

(** Two states of the form that differ at most in the error marks. *)
Definition sameFormData (f f' : Form) : Prop :=
  formClassList f' = formClassList f /\
  banners f' = banners f /\
  map fieldData (fields f') = map fieldData (fields f).

(** A field that validation accepts. *)
Definition passes (fd : Field) : Prop :=
  verdict fd = Valid /\ parentElement fd <> None.

(** Every input of the list designates a field that validation accepts. *)
Definition allPass (f : Form) (inputs : list nat) : Prop :=
  forall i, In i inputs -> exists fd, nth_error (fields f) i = Some fd /\ passes fd.

(** A string of the shape [local@domain.tld]: three non-empty runs of
    characters other than white space and [@], joined by [@] and a dot. *)
Definition emailShaped (v : JsString.t) : Prop :=
  exists a b c,
    v = a ++ [64%N] ++ b ++ [46%N] ++ c /\
    a <> [] /\ b <> [] /\ c <> [] /\
    forallb notSpaceOrAt a = true /\
    forallb notSpaceOrAt b = true /\
    forallb notSpaceOrAt c = true.

(** ** Sample pages *)

Module Sample.

Definition page : Page :=
  mkPage false (Some (mkHeader 64 (Some true)))
         [mkLink (Some "#services"); mkLink (Some "#"); mkLink None]
         (fun sel =>
            if String.eqb sel "#services" then Match 0
            else if String.eqb sel "#" then InvalidSelector
            else NoMatch)
         (fun _ => 500%Q) (Some 1) true true true.

(** A page as the markup gives it: a header with its navigation, no
    toggle, no scroll-to-top button, no form. *)
Definition world : World :=
  mkWorld page (mkViewport 0 0 1024)
          (Some (Dom.mkElement ["main-nav"] [])) None [] (fun _ => Dom.mkElement [] [])
          [] [] None None [] [] [] [] [] 0.

(** The same page without the [.header-container] the menu code expects. *)
Definition worldWithoutContainer : World :=
  mkWorld (mkPage false (Some (mkHeader 64 None)) (navLinks page) (resolve page)
                  (targetTop page) (mainElement page) true true true)
          (mkViewport 0 0 1024)
          (Some (Dom.mkElement ["main-nav"] [])) None [] (fun _ => Dom.mkElement [] [])
          [] [] None None [] [] [] [] [] 0.

Definition input (ty : string) (required : bool) (v : string) (parent : option nat) : Field :=
  mkField (JsString.ofString v) [] ty
          (Dom.mkElement [] (if required then [("required", "")] else []))
          parent.

Definition withFields (fds : list Field) : World :=
  set_form (Some (mkForm [] fds (fun _ => []) [])) world.


(** The page after its menu toggle was synthesized: the closed state. *)
Definition closedMenuWorld : World :=
  set_menuToggle
    (Some (Dom.mkElement ["mobile-menu-toggle"]
             [("aria-label", "Toggle navigation menu"); ("aria-expanded", "false")]))
    world.

(** A page whose markup has the toggle, written without [aria-expanded]. *)
Definition markupToggleWorld : World :=
  set_menuToggle (Some (Dom.mkElement ["mobile-menu-toggle"] [])) world.




(** A lazy image that came in through [srcset]: complete, no [src]. *)
Definition srcsetImage : Image := mkImage [] None true [].

Definition loadedImage : Image := mkImage [] (Some "hero.jpg") true [].

End Sample.

(** A computation that leaves a part of the world as it was. *)
Definition keeps {A B : Type} (part : World -> A) (m : M B) : Prop :=
  forall w, part (snd (m w)) = part w.




(** A computation that never lets an exception out. *)
Definition neverThrows {A} (m : M A) : Prop :=
  forall w, exists a, result m w = Normal a.


(** A string that neither starts nor ends with white space. *)
Definition noOuterWhiteSpace (s : JsString.t) : Prop :=
  match s with
  | [] => True
  | c :: _ => JsString.isWhiteSpace c = false
  end /\
  match rev s with
  | [] => True
  | c :: _ => JsString.isWhiteSpace c = false
  end.


(* ================================================================== *)
(** * The debounce utility *)
(* ================================================================== *)

(** [debounce(func, wait)] returns a closure over [timeoutId]. The state
    below is that variable, the timers of the closure the host holds
    ([setTimeout] gives a fresh identifier, [clearTimeout] drops the timer
    of an identifier), and the arguments [func] was applied to so far. *)

Module Debounce.

Section Closure.

Variable Args : Type.

Record State : Type := mkState {
  timeoutId : option nat;
  scheduled : list (nat * Z * Args);
  nextTimerId : nat;
  applied : list Args
}.

(** The closure as [debounce] returns it: [timeoutId = null]. *)
Definition fresh (next : nat) : State := mkState None [] next [].

(** [clearTimeout(id)] *)
Definition clearTimeout (id : nat) (table : list (nat * Z * Args))
  : list (nat * Z * Args) :=
  filter (fun t => negb (Nat.eqb id (fst (fst t)))) table.

(** [debounced(...args)] *)
Definition debounced (wait : Z) (args : Args) (s : State) : State :=
  let table :=
    match timeoutId s with
    | Some id => clearTimeout id (scheduled s)
    | None => scheduled s
    end in
  let id := nextTimerId s in
  mkState (Some id) (table ++ [(id, wait, args)]) (S id) (applied s).

(** The host runs the callback of timer [id], when it is still scheduled:
    [timeoutId = null; func.apply(context, args)]. *)
Definition fire (id : nat) (s : State) : State :=
  match find (fun t => Nat.eqb id (fst (fst t))) (scheduled s) with
  | None => s
  | Some (_, _, args) =>
      mkState None (clearTimeout id (scheduled s)) (nextTimerId s) (applied s ++ [args])
  end.

(** What happens to the closure: it is called, or one of its timers is due. *)
Inductive Step : Type :=
| Call (args : Args)
| Due (id : nat).

Definition step (wait : Z) (s : State) (e : Step) : State :=
  match e with
  | Call args => debounced wait args s
  | Due id => fire id s
  end.

Definition run (wait : Z) (trace : list Step) (s : State) : State :=
  fold_left (step wait) trace s.

(** The arguments of the calls of a trace, in order. *)
Definition callsOf (trace : list Step) : list Args :=
  flat_map (fun e => match e with Call a => [a] | Due _ => [] end) trace.

End Closure.

End Debounce.

(* ================================================================== *)
(** * Facts about the pattern matcher *)
(* ================================================================== *)

Module RegExpFacts.
Import RegExp.

Lemma nullable_denotes (r : t) : nullable r = true <-> denotes r [].
Proof.
  induction r as [| |p|r1 IH1 r2 IH2|r1 IH1 r2 IH2|r1 IH1]; simpl; split; intro H.
  - discriminate.
  - inversion H.
  - constructor.
  - reflexivity.
  - discriminate.
  - inversion H.
  - apply andb_true_iff in H. destruct H as [H1 H2].
    change (@nil N) with (@nil N ++ []). constructor; tauto.
  - inversion H as [| |r1' r2' s1 s2 D1 D2 E1 E2| | | |]; subst.
    apply app_eq_nil in E2. destruct E2; subst.
    apply andb_true_iff. tauto.
  - apply orb_true_iff in H. destruct H; [apply DAltL | apply DAltR]; tauto.
  - apply orb_true_iff. inversion H; subst; tauto.
  - constructor.
  - reflexivity.
Qed.

Lemma star_cons (r : t) (c : N) (s : JsString.t) :
  denotes (Star r) (c :: s) ->
  exists s1 s2, s = s1 ++ s2 /\ denotes r (c :: s1) /\ denotes (Star r) s2.
Proof.
  intro H. remember (Star r) as sr eqn:Er. remember (c :: s) as cs eqn:Es.
  revert s Es.
  induction H as [| | | | | |r' s1 s2 D1 _ D2 IH2]; intros s0 Es; try discriminate.
  injection Er as ->.
  destruct s1 as [|c1 s1'].
  - simpl in Es. apply IH2; auto.
  - simpl in Es. injection Es as -> <-.
    exists s1', s2. auto.
Qed.

Lemma deriv_sound (r : t) : forall c s, denotes (deriv c r) s -> denotes r (c :: s).
Proof.
  induction r as [| |p|r1 IH1 r2 IH2|r1 IH1 r2 IH2|r1 IH1]; intros c s H; simpl in H.
  - inversion H.
  - inversion H.
  - destruct (p c) eqn:Ep; inversion H; subst. now constructor.
  - destruct (nullable r1) eqn:En.
    + inversion H as [| | |? ? ? D|? ? ? D| |]; subst.
      * inversion D as [| |? ? s1 s2 D1 D2| | | |]; subst.
        change (c :: s1 ++ s2) with ((c :: s1) ++ s2). constructor; auto.
      * change (c :: s) with ([] ++ c :: s). constructor; auto.
        now apply nullable_denotes.
    + inversion H as [| |? ? s1 s2 D1 D2| | | |]; subst.
      change (c :: s1 ++ s2) with ((c :: s1) ++ s2). constructor; auto.
  - inversion H; subst; [apply DAltL | apply DAltR]; auto.
  - inversion H as [| |? ? s1 s2 D1 D2| | | |]; subst.
    change (c :: s1 ++ s2) with ((c :: s1) ++ s2). apply DStarApp; auto.
Qed.

Lemma deriv_complete (r : t) : forall c s, denotes r (c :: s) -> denotes (deriv c r) s.
Proof.
  induction r as [| |p|r1 IH1 r2 IH2|r1 IH1 r2 IH2|r1 IH1]; intros c s H; simpl.
  - inversion H.
  - inversion H.
  - inversion H as [|? ? Hp| | | | |]; subst. rewrite Hp. constructor.
  - inversion H as [| |? ? s1 s2 D1 D2 E1 E2| | | |]; subst.
    destruct s1 as [|c1 s1'].
    + simpl in E2. subst s2.
      apply nullable_denotes in D1. rewrite D1. apply DAltR. auto.
    + simpl in E2. injection E2 as -> <-.
      assert (D : denotes (Cat (deriv c r1) r2) (s1' ++ s2)) by (constructor; auto).
      destruct (nullable r1); [apply DAltL|]; exact D.
  - inversion H; subst; [apply DAltL | apply DAltR]; auto.
  - apply star_cons in H. destruct H as (s1 & s2 & -> & D1 & D2).
    constructor; auto.
Qed.

(** [test] decides membership in the language of the pattern. *)
Theorem test_denotes (s : JsString.t) : forall r, test r s = true <-> denotes r s.
Proof.
  induction s as [|c s IH]; intro r; simpl.
  - apply nullable_denotes.
  - rewrite IH. split; [apply deriv_sound | apply deriv_complete].
Qed.

Lemma star_class (p : N -> bool) (s : JsString.t) :
  denotes (Star (Class p)) s <-> forallb p s = true.
Proof.
  split.
  - intro H. remember (Star (Class p)) as sr eqn:Er.
    induction H as [| | | | | |r' s1 s2 D1 _ D2 IH2]; try discriminate; auto.
    injection Er as ->. inversion D1; subst. simpl.
    apply andb_true_iff. auto.
  - induction s as [|c s IH]; simpl; intro H.
    + constructor.
    + apply andb_true_iff in H. destruct H as [Hc Hs].
      change (c :: s) with ([c] ++ s). apply DStarApp; auto. now constructor.
Qed.

Lemma plus_class (p : N -> bool) (s : JsString.t) :
  denotes (Plus (Class p)) s <-> s <> [] /\ forallb p s = true.
Proof.
  unfold Plus. split.
  - intro H. inversion H as [| |? ? s1 s2 D1 D2| | | |]; subst.
    inversion D1; subst. simpl. split; [discriminate|].
    apply andb_true_iff. split; auto. now apply star_class.
  - intros [Hne H]. destruct s as [|c s]; [congruence|].
    simpl in H. apply andb_true_iff in H. destruct H as [Hc Hs].
    change (c :: s) with ([c] ++ s). constructor; [now constructor|].
    now apply star_class.
Qed.

(** [r+] between the anchors: a non-empty string of the class. *)
Lemma test_plus_class (p : N -> bool) (s : JsString.t) :
  test (Plus (Class p)) s = JsString.truthy s && forallb p s.
Proof.
  destruct (test (Plus (Class p)) s) eqn:E.
  - apply test_denotes, plus_class in E. destruct E as [Hne ->].
    destruct s; [congruence | reflexivity].
  - destruct s as [|c s]; [reflexivity|].
    destruct (forallb p (c :: s)) eqn:F; [|reflexivity].
    assert (D : denotes (Plus (Class p)) (c :: s))
      by (apply plus_class; split; [discriminate | exact F]).
    apply test_denotes in D. congruence.
Qed.

End RegExpFacts.

(* ================================================================== *)
(** * Facts about class lists and attributes *)
(* ================================================================== *)

Module DomFacts.
Import Dom.

Lemma contains_app (c : string) (l1 l2 : list string) :
  contains c (l1 ++ l2) = contains c l1 || contains c l2.
Proof. unfold contains. apply existsb_app. Qed.

Lemma contains_add (c : string) (cl : list string) : contains c (add c cl) = true.
Proof.
  unfold add. destruct (contains c cl) eqn:E; [exact E|].
  rewrite contains_app. simpl. rewrite String.eqb_refl. now rewrite orb_true_r.
Qed.

Lemma contains_remove (c : string) (cl : list string) : contains c (remove c cl) = false.
Proof.
  unfold contains, remove. induction cl as [|x cl IH]; simpl; [reflexivity|].
  destruct (String.eqb c x) eqn:E; simpl; [exact IH|]. now rewrite E.
Qed.

Lemma remove_absent (c : string) (cl : list string) :
  contains c cl = false -> remove c cl = cl.
Proof.
  unfold contains, remove. induction cl as [|x cl IH]; simpl; [reflexivity|].
  intro H. apply orb_false_iff in H. destruct H as [E H].
  rewrite E. simpl. now rewrite IH.
Qed.

(** Adding a token that was absent and removing it restores the list. *)
Lemma remove_add (c : string) (cl : list string) :
  contains c cl = false -> remove c (add c cl) = cl.
Proof.
  intro H. unfold add. rewrite H. unfold remove. rewrite filter_app. simpl.
  rewrite String.eqb_refl. simpl. rewrite app_nil_r. now apply remove_absent.
Qed.

Lemma getAttribute_setAttribute (k v : string) (attrs : list (string * string)) :
  getAttribute k (setAttribute k v attrs) = Some v.
Proof.
  induction attrs as [|[k' v'] rest IH]; simpl.
  - now rewrite String.eqb_refl.
  - destruct (String.eqb k k') eqn:E; simpl.
    + now rewrite String.eqb_refl.
    + now rewrite E.
Qed.

Lemma setAttribute_setAttribute (k v v' : string) (attrs : list (string * string)) :
  setAttribute k v (setAttribute k v' attrs) = setAttribute k v attrs.
Proof.
  induction attrs as [|[k0 v0] rest IH]; simpl.
  - now rewrite String.eqb_refl.
  - destruct (String.eqb k k0) eqn:E; simpl.
    + now rewrite String.eqb_refl.
    + rewrite E. now rewrite IH.
Qed.

Lemma setAttribute_same (k v : string) (attrs : list (string * string)) :
  getAttribute k attrs = Some v -> setAttribute k v attrs = attrs.
Proof.
  induction attrs as [|[k0 v0] rest IH]; simpl; [discriminate|].
  destruct (String.eqb k k0) eqn:E.
  - intro H. injection H as ->. apply String.eqb_eq in E. now subst.
  - intro H. now rewrite IH.
Qed.

Lemma getAttribute_removeAttribute (k : string) (attrs : list (string * string)) :
  getAttribute k (removeAttribute k attrs) = None.
Proof.
  unfold removeAttribute. induction attrs as [|[k0 v0] rest IH]; simpl; [reflexivity|].
  destruct (String.eqb k k0) eqn:E; simpl; [exact IH|]. now rewrite E.
Qed.

Lemma world_eta (w : World) :
  mkWorld (page w) (viewport w) (nav w) (menuToggle w) (styles w) (targets w)
          (images w) (observed w) (scrollButton w) (form w) (cards w) (listeners w)
          (console w) (effects w) (timers w) (nextId w) = w.
Proof. now destruct w. Qed.

End DomFacts.

(* ================================================================== *)
(** * Scroll-to-top visibility *)
(* ================================================================== *)

Section ScrollToTopVisibility.

Variable w : World.
Variable button : Dom.Element.
Hypothesis button_present : scrollButton w = Some button.

Lemma Qgtb_iff (a b : Q) : Qgtb a b = true <-> (b < a)%Q.
Proof.
  unfold Qgtb. rewrite negb_true_iff. split.
  - intro H. apply Qnot_le_lt. intro L. apply Qle_bool_iff in L. congruence.
  - intro H. destruct (Qle_bool a b) eqn:E; [|reflexivity].
    apply Qle_bool_iff in E. exfalso. now apply (Qlt_not_le _ _ H).
Qed.

(** What the handler compares with the threshold, told by the two
    readings it combines: [window.pageYOffset] unless that is 0, and then
    the root element's [scrollTop]. *)
Lemma scrollPosition_above (v : Viewport) :
  Qgtb (scrollPosition v) 300 = true <->
  (300 < pageYOffset v)%Q \/ ((pageYOffset v == 0)%Q /\ (300 < scrollTop v)%Q).
Proof.
  rewrite Qgtb_iff. unfold scrollPosition.
  destruct (Qeq_bool (pageYOffset v) 0) eqn:E.
  - apply Qeq_bool_iff in E. split.
    + intro H. right. split; assumption.
    + intros [H | [_ H]]; [|exact H]. rewrite E in H. discriminate H.
  - split.
    + intro H. now left.
    + intros [H | [Z _]]; [exact H|]. apply Qeq_bool_iff in Z. congruence.
Qed.

(** C2. After [handleScroll] has run the scroll-to-top button carries the
    class [visible] exactly when the vertical scroll offset is strictly
    above 300. The offset is [window.pageYOffset], and the root element's
    [scrollTop] when that reads 0; where the two readings agree, as they
    do in a browser (the root element scrolls with the window, or reports
    0), the button is visible exactly when [pageYOffset] exceeds 300: not
    at offset 0, not at exactly 300, and at every offset above 300. *)
Theorem handleScroll_visible_iff_above_threshold :
  let v := viewport w in
  exists button',
    handleScroll w = (Normal tt, set_scrollButton (Some button') w) /\
    Dom.attributes button' = Dom.attributes button /\
    (Dom.hasClass "visible" button' = true <->
     (300 < pageYOffset v)%Q \/ ((pageYOffset v == 0)%Q /\ (300 < scrollTop v)%Q)) /\
    ((scrollTop v == pageYOffset v)%Q \/ (scrollTop v == 0)%Q ->
     (Dom.hasClass "visible" button' = true <-> (300 < pageYOffset v)%Q) /\
     ((pageYOffset v == 0)%Q -> Dom.hasClass "visible" button' = false) /\
     ((pageYOffset v == 300)%Q -> Dom.hasClass "visible" button' = false) /\
     ((300 < pageYOffset v)%Q -> Dom.hasClass "visible" button' = true)).
Proof.
  intro v. unfold handleScroll, tryCatch. rewrite button_present.
  change (inject_Z CONFIG.SCROLL_TO_TOP_THRESHOLD) with 300%Q.
  pose proof (scrollPosition_above v) as A. fold v.
  assert (B : (scrollTop v == pageYOffset v)%Q \/ (scrollTop v == 0)%Q ->
              ((300 < pageYOffset v)%Q \/ ((pageYOffset v == 0)%Q /\ (300 < scrollTop v)%Q)
               <-> (300 < pageYOffset v)%Q)).
  { intro R. split; [|now left].
    intros [H | [Z H]]; [exact H|]. exfalso.
    destruct R as [R | R]; rewrite R in H; [rewrite Z in H|]; discriminate H. }
  destruct (Qgtb (scrollPosition v) 300) eqn:G.
  - exists (Dom.addClass CLASSES.SCROLL_TO_TOP_VISIBLE button).
    assert (C : Dom.hasClass "visible" (Dom.addClass CLASSES.SCROLL_TO_TOP_VISIBLE button) = true)
      by apply DomFacts.contains_add.
    assert (L : (300 < pageYOffset v)%Q \/ ((pageYOffset v == 0)%Q /\ (300 < scrollTop v)%Q))
      by now apply A.
    split; [reflexivity|]. split; [reflexivity|]. rewrite C.
    split; [tauto|]. intro R. apply (B R) in L.
    split; [tauto|]. split; [|split; [|tauto]].
    + intro E. rewrite E in L. discriminate L.
    + intro E. rewrite E in L. exfalso. now apply (Qlt_irrefl 300).
  - exists (Dom.removeClass CLASSES.SCROLL_TO_TOP_VISIBLE button).
    assert (C : Dom.hasClass "visible" (Dom.removeClass CLASSES.SCROLL_TO_TOP_VISIBLE button) = false)
      by apply DomFacts.contains_remove.
    assert (L : ~ ((300 < pageYOffset v)%Q \/ ((pageYOffset v == 0)%Q /\ (300 < scrollTop v)%Q))).
    { intro L. apply A in L. congruence. }
    split; [reflexivity|]. split; [reflexivity|]. rewrite C.
    split; [split; [discriminate | tauto]|]. intro R.
    split; [split; [discriminate | intro H; exfalso; apply L; now left]|].
    split; [reflexivity|]. split; [reflexivity|].
    intro H. exfalso. apply L. now left.
Qed.

End ScrollToTopVisibility.

(** Once the feature is initialized the button is in the document, made
    by the script when the markup has none. *)
Lemma initScrollToTop_provides_button (w : World) :
  result initScrollToTop w = Normal tt /\
  exists button, scrollButton (after initScrollToTop w) = Some button.
Proof.
  unfold initScrollToTop, createScrollToTopButton, addScrollToTopStyles, handleScroll.
  unfold result, after, tryCatch, bind, ret, modify, addEventListener.
  destruct (scrollButton w) as [b|] eqn:E.
  - simpl. rewrite E.
    destruct (Qgtb (scrollPosition (viewport w)) (inject_Z CONFIG.SCROLL_TO_TOP_THRESHOLD));
      simpl; eauto.
  - destruct (existsb (String.eqb "scroll-to-top-styles") (styles w)); simpl;
      destruct (Qgtb (scrollPosition (viewport w)) (inject_Z CONFIG.SCROLL_TO_TOP_THRESHOLD));
      simpl; eauto.
Qed.

(* ================================================================== *)
(** * The mobile menu *)
(* ================================================================== *)

Section MobileMenu.

Import Dom.

Local Abbreviation OPEN := CLASSES.MOBILE_MENU_OPEN.

Lemma openMobileMenu_spec (w : World) (n t : Element) :
  nav w = Some n -> menuToggle w = Some t ->
  openMobileMenu w =
    (Normal tt,
     set_menuToggle (Some (setAttr "aria-expanded" "true" (addClass OPEN t)))
       (set_nav (Some (addClass OPEN n)) w)).
Proof. intros Hn Ht. unfold openMobileMenu. now rewrite Hn, Ht. Qed.

Lemma closeMobileMenu_spec (w : World) (n t : Element) :
  nav w = Some n -> menuToggle w = Some t ->
  closeMobileMenu w =
    (Normal tt,
     set_menuToggle (Some (setAttr "aria-expanded" "false" (removeClass OPEN t)))
       (set_nav (Some (removeClass OPEN n)) w)).
Proof. intros Hn Ht. unfold closeMobileMenu. now rewrite Hn, Ht. Qed.

Lemma toggleMobileMenu_spec (w : World) (n t : Element) :
  nav w = Some n -> menuToggle w = Some t ->
  toggleMobileMenu w =
    if hasClass OPEN n then closeMobileMenu w else openMobileMenu w.
Proof.
  intros Hn Ht. unfold toggleMobileMenu, tryCatch. rewrite Hn, Ht.
  destruct (hasClass OPEN n).
  - now rewrite (closeMobileMenu_spec w Hn Ht).
  - now rewrite (openMobileMenu_spec w Hn Ht).
Qed.

(** Without a navigation or without a toggle no menu function does anything. *)
Lemma menu_absent (w : World) :
  nav w = None \/ menuToggle w = None ->
  openMobileMenu w = (Normal tt, w) /\
  closeMobileMenu w = (Normal tt, w) /\
  toggleMobileMenu w = (Normal tt, w).
Proof.
  unfold openMobileMenu, closeMobileMenu, toggleMobileMenu, tryCatch.
  intros [H | H]; rewrite H; destruct (nav w); auto.
Qed.

(** C4 (amended). From the closed state in which the toggle says it is
    collapsed ([aria-expanded="false"], as on the toggle the script makes
    and after every close), a toggle opens the menu and a second toggle
    closes it again, and then the navigation's class list, the toggle's
    class list and the toggle's [aria-expanded] are what they were in the
    closed state (the whole document is). *)
Theorem toggle_open_close_restores_closed_state (w : World) :
  menuClosed w ->
  let w1 := after toggleMobileMenu w in
  let w2 := after toggleMobileMenu w1 in
  (exists n1 t1,
      nav w1 = Some n1 /\ menuToggle w1 = Some t1 /\
      hasClass OPEN n1 = true /\ hasClass OPEN t1 = true /\
      getAttr "aria-expanded" t1 = Some "true") /\
  option_map classList (nav w2) = option_map classList (nav w) /\
  option_map classList (menuToggle w2) = option_map classList (menuToggle w) /\
  option_map (getAttr "aria-expanded") (menuToggle w2)
    = option_map (getAttr "aria-expanded") (menuToggle w) /\
  w2 = w.
Proof.
  intros (n & t & Hn & Ht & Cn & Ct & A) w1 w2.
  assert (E1 : w1 = set_menuToggle (Some (setAttr "aria-expanded" "true" (addClass OPEN t)))
                      (set_nav (Some (addClass OPEN n)) w)).
  { unfold w1, after. rewrite (toggleMobileMenu_spec w Hn Ht), Cn.
    now rewrite (openMobileMenu_spec w Hn Ht). }
  assert (E2 : w2 = w).
  { unfold w2, after.
    rewrite (@toggleMobileMenu_spec w1 (addClass OPEN n)
               (setAttr "aria-expanded" "true" (addClass OPEN t)))
      by (rewrite E1; reflexivity).
    replace (hasClass OPEN (addClass OPEN n)) with true
      by (symmetry; apply DomFacts.contains_add).
    rewrite (@closeMobileMenu_spec w1 (addClass OPEN n)
               (setAttr "aria-expanded" "true" (addClass OPEN t)))
      by (rewrite E1; reflexivity).
    rewrite E1. unfold set_menuToggle, set_nav, removeClass, setAttr, addClass.
    simpl.
    rewrite !DomFacts.remove_add by assumption.
    rewrite DomFacts.setAttribute_setAttribute.
    rewrite DomFacts.setAttribute_same by exact A.
    destruct w as [? ? wn wt ? ? ? ? ? ? ? ? ? ? ? ?]. simpl in *. subst wn wt.
    destruct n, t. reflexivity. }
  split.
  - exists (addClass OPEN n), (setAttr "aria-expanded" "true" (addClass OPEN t)).
    rewrite E1. simpl. repeat split.
    + apply DomFacts.contains_add.
    + apply (DomFacts.contains_add OPEN (classList t)).
    + apply DomFacts.getAttribute_setAttribute.
  - rewrite E2. auto.
Qed.

(** Whatever [aria-expanded] was before, two toggles from a state without
    the open class keep both class lists and leave [aria-expanded] at
    ["false"]. *)
Lemma toggle_open_close_unmarked (w : World) (n t : Element) :
  nav w = Some n -> menuToggle w = Some t ->
  hasClass OPEN n = false -> hasClass OPEN t = false ->
  let w2 := after toggleMobileMenu (after toggleMobileMenu w) in
  nav w2 = Some n /\
  option_map classList (menuToggle w2) = Some (classList t) /\
  option_map (getAttr "aria-expanded") (menuToggle w2) = Some (Some "false").
Proof.
  intros Hn Ht Cn Ct w2. unfold w2, after.
  rewrite (toggleMobileMenu_spec w Hn Ht), Cn, (openMobileMenu_spec w Hn Ht). simpl.
  erewrite toggleMobileMenu_spec by reflexivity.
  replace (hasClass OPEN (addClass OPEN n)) with true
    by (symmetry; apply DomFacts.contains_add).
  erewrite closeMobileMenu_spec by reflexivity. simpl.
  unfold removeClass, addClass, setAttr, getAttr. simpl.
  rewrite !DomFacts.remove_add by assumption.
  rewrite DomFacts.getAttribute_setAttribute.
  destruct n. auto.
Qed.

(** C4 as worded fails for a toggle of the markup that carries no
    [aria-expanded] attribute: the menu is closed (no open class on the
    navigation or on the toggle, and the three marks agree), yet after a
    toggle that opens and a toggle that closes both class lists are back
    and the attribute is ["false"], not absent as it was. *)
Lemma toggle_pair_sets_missing_aria_expanded :
  let W := Sample.markupToggleWorld in
  let W2 := after toggleMobileMenu (after toggleMobileMenu W) in
  menuWithoutOpenClass W /\ menuSynchronized W /\
  option_map (getAttr "aria-expanded") (menuToggle W) = Some None /\
  option_map (getAttr "aria-expanded") (menuToggle W2) = Some (Some "false") /\
  option_map classList (nav W2) = option_map classList (nav W) /\
  option_map classList (menuToggle W2) = option_map classList (menuToggle W) /\
  W2 <> W.
Proof.
  intros W W2. split; [|split].
  - eexists. eexists. repeat split.
  - intros n t En Et. injection En as <-. injection Et as <-.
    split; split; intro H; discriminate H.
  - repeat split. intro E. apply (f_equal menuToggle) in E. discriminate E.
Qed.

(** What [closeMobileMenu] and [openMobileMenu] establish. *)
Lemma closeMobileMenu_synchronized (w : World) :
  menuSynchronized w -> menuSynchronized (after closeMobileMenu w).
Proof.
  intro S. unfold after.
  destruct (nav w) as [n|] eqn:Hn; [destruct (menuToggle w) as [t|] eqn:Ht|].
  - rewrite (closeMobileMenu_spec w Hn Ht). simpl.
    intros n' t' En Et. simpl in En, Et. injection En as <-. injection Et as <-.
    unfold hasClass, getAttr, removeClass, setAttr. simpl.
    rewrite !DomFacts.contains_remove, DomFacts.getAttribute_setAttribute.
    split; split; intro H; discriminate H.
  - destruct (menu_absent w (or_intror Ht)) as (_ & -> & _). exact S.
  - destruct (menu_absent w (or_introl Hn)) as (_ & -> & _). exact S.
Qed.

Lemma openMobileMenu_synchronized (w : World) :
  menuSynchronized w -> menuSynchronized (after openMobileMenu w).
Proof.
  intro S. unfold after.
  destruct (nav w) as [n|] eqn:Hn; [destruct (menuToggle w) as [t|] eqn:Ht|].
  - rewrite (openMobileMenu_spec w Hn Ht). simpl.
    intros n' t' En Et. simpl in En, Et. injection En as <-. injection Et as <-.
    unfold hasClass, getAttr, addClass, setAttr. simpl.
    rewrite !DomFacts.contains_add, DomFacts.getAttribute_setAttribute.
    split; split; reflexivity.
  - destruct (menu_absent w (or_intror Ht)) as (-> & _). exact S.
  - destruct (menu_absent w (or_introl Hn)) as (-> & _). exact S.
Qed.

Lemma synchronized_ext (w w' : World) :
  nav w' = nav w -> menuToggle w' = menuToggle w ->
  menuSynchronized w -> menuSynchronized w'.
Proof. unfold menuSynchronized. intros -> ->. auto. Qed.

End MobileMenu.

(* ================================================================== *)
(** * Smooth scrolling *)
(* ================================================================== *)

Ltac run_js :=
  unfold after, result, tryCatch, bind, ret, gets, modify, throw, perform,
    preventDefault, logError, consoleLog, addEventListener, setTimeout;
  simpl.

Section SmoothScroll.

Variable w : World.
Variable link : Link.

(** The handler always completes normally, and when the link resolves the
    menu it leaves is the one [closeMobileMenu] leaves. *)
Lemma handleSmoothScroll_menu :
  result (handleSmoothScroll link) w = Normal tt /\
  ((nav (after (handleSmoothScroll link) w) = nav w /\
    menuToggle (after (handleSmoothScroll link) w) = menuToggle w) \/
   (nav (after (handleSmoothScroll link) w) = nav (after closeMobileMenu w) /\
    menuToggle (after (handleSmoothScroll link) w) = menuToggle (after closeMobileMenu w))).
Proof.
  unfold handleSmoothScroll, querySelector, getScrollOffset, focusTransiently,
    updateTarget.
  destruct (href link) as [targetId|]; [|run_js; auto].
  destruct (String.eqb targetId "" || negb (String.prefix "#" targetId));
    [run_js; auto|].
  run_js. destruct (resolve (page w) targetId) as [| |id]; simpl; auto.
  destruct (hasPushState (page w)); simpl;
    unfold closeMobileMenu; simpl;
    destruct (nav w), (menuToggle w); simpl; auto.
Qed.

(** C8. A click on a navigation link whose fragment is absent, does not
    start with [#] or does not resolve to an element is a no-op of the
    smooth-scroll handler: the default navigation is not prevented, no
    scroll is issued, the URL is not changed, the mobile menu and the
    focus are left alone; nothing in the document changes (a selector the
    browser rejects is reported on the console). *)
Theorem handleSmoothScroll_noop_when_unresolved :
  unresolvedLink (page w) link ->
  let w' := after (handleSmoothScroll link) w in
  result (handleSmoothScroll link) w = Normal tt /\
  effects w' = effects w /\
  nav w' = nav w /\ menuToggle w' = menuToggle w /\
  targets w' = targets w /\
  (w' = w \/
   exists targetId,
     href link = Some targetId /\ resolve (page w) targetId = InvalidSelector /\
     w' = set_console
            (console w ++ [ConsoleError "Smooth scroll handler" (SyntaxError targetId)]) w).
Proof.
  unfold unresolvedLink, handleSmoothScroll, querySelector.
  destruct (href link) as [targetId|]; [|run_js; intuition].
  intros [P | R].
  - rewrite P, orb_true_r. run_js. intuition.
  - destruct (String.eqb targetId "" || negb (String.prefix "#" targetId));
      [run_js; intuition|].
    run_js. destruct (resolve (page w) targetId) as [| |id] eqn:E; simpl.
    + repeat split; auto. right. exists targetId. auto.
    + intuition.
    + exfalso. now apply (R id).
Qed.

End SmoothScroll.

(* ================================================================== *)
(** * The menu stays synchronized *)
(* ================================================================== *)

Section MenuInvariant.

Import Dom.

Lemma handleOutsideClick_synchronized (event : ClickEvent) (w : World) :
  menuSynchronized w -> menuSynchronized (after (handleOutsideClick event) w).
Proof.
  intro S. unfold after, handleOutsideClick.
  destruct (nav w) as [n|] eqn:Hn; [|exact S].
  destruct (menuToggle w) as [t|] eqn:Ht; [|exact S].
  destruct (negb (hasClass CLASSES.MOBILE_MENU_OPEN n)); [exact S|].
  destruct (negb (navContainsTarget event) && negb (toggleContainsTarget event));
    [|exact S].
  now apply closeMobileMenu_synchronized.
Qed.

Lemma handleEscapeKey_synchronized (event : KeyboardEvent) (w : World) :
  menuSynchronized w -> menuSynchronized (after (handleEscapeKey event) w).
Proof.
  intro S. unfold handleEscapeKey.
  destruct (String.eqb (key event) "Escape" || (keyCode event =? 27)%Z); [|exact S].
  now apply closeMobileMenu_synchronized.
Qed.

Lemma handleResize_synchronized (w : World) :
  menuSynchronized w -> menuSynchronized (after handleResize w).
Proof.
  intro S. unfold after, handleResize.
  destruct (CONFIG.MOBILE_BREAKPOINT <=? innerWidth (viewport w))%Z; [|exact S].
  now apply closeMobileMenu_synchronized.
Qed.

Lemma toggleMobileMenu_synchronized (w : World) :
  menuSynchronized w -> menuSynchronized (after toggleMobileMenu w).
Proof.
  intro S. unfold after.
  destruct (nav w) as [n|] eqn:Hn; [destruct (menuToggle w) as [t|] eqn:Ht|].
  - rewrite (toggleMobileMenu_spec w Hn Ht).
    destruct (hasClass CLASSES.MOBILE_MENU_OPEN n).
    + now apply closeMobileMenu_synchronized.
    + now apply openMobileMenu_synchronized.
  - destruct (menu_absent w (or_intror Ht)) as (_ & _ & ->). exact S.
  - destruct (menu_absent w (or_introl Hn)) as (_ & _ & ->). exact S.
Qed.

(** C9. Every operation on the mobile menu (open, close, toggle, a click
    outside, the Escape key, a resize, the close that smooth scrolling
    does) keeps the three marks of the menu state in step: the navigation
    has the open class exactly when the toggle has it, and exactly when the
    toggle's [aria-expanded] is ["true"]. *)
Theorem menu_operations_preserve_synchronization (op : MenuOperation) (w : World) :
  menuSynchronized w ->
  result (runMenuOperation op) w = Normal tt /\
  menuSynchronized (after (runMenuOperation op) w).
Proof.
  intro S. destruct op as [| | |event|event|width|link]; simpl.
  - split; [|now apply openMobileMenu_synchronized].
    unfold result, openMobileMenu. now destruct (nav w), (menuToggle w).
  - split; [|now apply closeMobileMenu_synchronized].
    unfold result, closeMobileMenu. now destruct (nav w), (menuToggle w).
  - split; [|now apply toggleMobileMenu_synchronized].
    unfold result, toggleMobileMenu, tryCatch, closeMobileMenu, openMobileMenu.
    destruct (nav w) as [n|], (menuToggle w); auto.
    now destruct (hasClass CLASSES.MOBILE_MENU_OPEN n).
  - split; [|now apply handleOutsideClick_synchronized].
    unfold result, handleOutsideClick, closeMobileMenu.
    destruct (nav w) as [n|], (menuToggle w); auto.
    destruct (negb (hasClass CLASSES.MOBILE_MENU_OPEN n)); auto.
    now destruct (negb (navContainsTarget event) && negb (toggleContainsTarget event)).
  - split; [|now apply handleEscapeKey_synchronized].
    unfold result, handleEscapeKey, closeMobileMenu.
    destruct (String.eqb (key event) "Escape" || (keyCode event =? 27)%Z); auto.
    now destruct (nav w), (menuToggle w).
  - split.
    + unfold result, bind, modify, handleResize, closeMobileMenu. simpl.
      destruct (CONFIG.MOBILE_BREAKPOINT <=? width)%Z; auto.
      now destruct (nav w), (menuToggle w).
    + change (after (modify (set_innerWidth width);; handleResize) w)
        with (after handleResize (set_innerWidth width w)).
      apply handleResize_synchronized.
      now apply (@synchronized_ext w).
  - destruct (handleSmoothScroll_menu w link) as [R [[En Et] | [En Et]]]; split; auto.
    + now apply (@synchronized_ext w).
    + apply (@synchronized_ext (after closeMobileMenu w)); auto.
      now apply closeMobileMenu_synchronized.
Qed.

(** Initialization with a synthesized toggle starts synchronized when the
    markup's navigation is not marked open. *)
Lemma initMobileMenu_synchronized (w : World) :
  menuToggle w = None ->
  (forall n, nav w = Some n -> hasClass CLASSES.MOBILE_MENU_OPEN n = false) ->
  menuSynchronized (after initMobileMenu w).
Proof.
  intros Ht Hn. unfold initMobileMenu, createMobileMenuToggle, addMobileMenuStyles.
  run_js. rewrite Ht.
  destruct (header (page w)) as [h|]; [|intros n t _ E; simpl in E; congruence].
  destruct (nav w) as [n0|] eqn:En; [|intros n t _ E; simpl in E; congruence].
  destruct (existsb (String.eqb "mobile-menu-styles") (styles w)); simpl;
    destruct (headerContainer h) as [[|]|]; simpl;
    intros n t E1 E2; simpl in E1, E2; try congruence;
    injection E2 as <-; rewrite En in E1; injection E1 as <-;
    rewrite (Hn n0 eq_refl); split; split; intro H; discriminate H.
Qed.

End MenuInvariant.

(* ================================================================== *)
(** * Form validation: how one field is validated *)
(* ================================================================== *)

Section ListUpdate.

Variable A : Type.

Lemma updateNth_length (i : nat) (g : A -> A) (l : list A) :
  List.length (updateNth i g l) = List.length l.
Proof.
  revert i. induction l as [|x l IH]; intros [|i]; simpl; auto.
Qed.

Lemma nth_error_updateNth_eq (i : nat) (g : A -> A) (l : list A) :
  nth_error (updateNth i g l) i = option_map g (nth_error l i).
Proof.
  revert i. induction l as [|x l IH]; intros [|i]; simpl; auto.
Qed.

Lemma nth_error_updateNth_neq (i j : nat) (g : A -> A) (l : list A) :
  i <> j -> nth_error (updateNth i g l) j = nth_error l j.
Proof.
  revert i j. induction l as [|x l IH]; intros [|i] [|j] H; simpl; auto;
    try congruence.
Qed.

Lemma map_updateNth (B : Type) (h : A -> B) (i : nat) (g : A -> A) (l : list A) :
  (forall x, h (g x) = h x) -> map h (updateNth i g l) = map h l.
Proof.
  intro H. revert i. induction l as [|x l IH]; intros [|i]; simpl; auto.
  - now rewrite H.
  - now rewrite IH.
Qed.

End ListUpdate.

Section FieldValidation.

Import Dom.

Lemma bind_run (A B : Type) (m : M A) (k : A -> M B) (w w' : World) (a : A) :
  m w = (Normal a, w') -> bind m k w = k a w'.
Proof. intro H. unfold bind. now rewrite H. Qed.

Lemma bind_throw (A B : Type) (m : M A) (k : A -> M B) (w w' : World) (e : JsError) :
  m w = (Throw e, w') -> bind m k w = (Throw e, w').
Proof. intro H. unfold bind. now rewrite H. Qed.

Lemma getAttribute_setAttribute_other (k k' v : string) (attrs : list (string * string)) :
  String.eqb k k' = false ->
  getAttribute k (setAttribute k' v attrs) = getAttribute k attrs.
Proof.
  intro H. induction attrs as [|[k0 v0] rest IH]; simpl.
  - now rewrite H.
  - destruct (String.eqb k' k0) eqn:E; simpl.
    + apply String.eqb_eq in E. subst k0. now rewrite H.
    + now rewrite IH.
Qed.

Lemma getAttribute_removeAttribute_other (k k' : string) (attrs : list (string * string)) :
  String.eqb k k' = false ->
  getAttribute k (removeAttribute k' attrs) = getAttribute k attrs.
Proof.
  intro H. unfold removeAttribute.
  induction attrs as [|[k0 v0] rest IH]; simpl; [reflexivity|].
  destruct (String.eqb k' k0) eqn:E; simpl.
  - apply String.eqb_eq in E. subst k0. now rewrite H.
  - now rewrite IH.
Qed.

Lemma fieldData_cleared (fd : Field) :
  fieldData (mapFieldElement cleared fd) = fieldData fd.
Proof.
  unfold fieldData, isRequired, hasAttribute, mapFieldElement, cleared. simpl.
  now rewrite getAttribute_removeAttribute_other.
Qed.

Lemma fieldData_flagged (fd : Field) :
  fieldData (mapFieldElement flagged fd) = fieldData fd.
Proof.
  unfold fieldData, isRequired, hasAttribute, mapFieldElement, flagged. simpl.
  now rewrite getAttribute_setAttribute_other.
Qed.

Lemma updateNth_twice (A : Type) (i : nat) (g h : A -> A) (l : list A) :
  updateNth i g (updateNth i h l) = updateNth i (fun x => g (h x)) l.
Proof.
  revert i. induction l as [|x l IH]; intros [|i]; simpl; auto.
  now rewrite IH.
Qed.

Variable w : World.
Variable f : Form.
Variable i : nat.
Variable fd : Field.
Variable p : nat.
Hypothesis form_present : form w = Some f.
Hypothesis field_present : nth_error (fields f) i = Some fd.
Hypothesis parent_present : parentElement fd = Some p.

Lemma getField_run : getField i w = (Normal fd, w).
Proof.
  unfold getField, getForm, bind. rewrite form_present, field_present. reflexivity.
Qed.

Lemma clearFieldError_run :
  clearFieldError i w =
    (Normal tt,
     set_form (Some (mkForm (formClassList f)
                            (updateNth i (mapFieldElement cleared) (fields f))
                            (fun q => if Nat.eqb q p then tl (fieldErrors f q)
                                      else fieldErrors f q)
                            (banners f))) w).
Proof.
  unfold clearFieldError. erewrite bind_run by apply getField_run.
  unfold updateFieldElement, updateFieldErrors, updateForm, getParentElement.
  rewrite parent_present. unfold bind, modify, ret. simpl.
  rewrite form_present. simpl. rewrite updateNth_twice. reflexivity.
Qed.

Lemma showFieldError_run (message : string) :
  showFieldError i message w =
    (Normal tt,
     set_form (Some (mkForm (formClassList f)
                            (updateNth i (mapFieldElement flagged) (fields f))
                            (fun q => if Nat.eqb q p
                                      then match fieldErrors f q with
                                           | [] => [mkErrorNode (Some "alert") message]
                                           | e :: rest =>
                                               mkErrorNode (errorRole e) message :: rest
                                           end
                                      else fieldErrors f q)
                            (banners f))) w).
Proof.
  unfold showFieldError. erewrite bind_run by apply getField_run.
  unfold updateFieldElement, updateFieldErrors, updateForm, getParentElement.
  rewrite parent_present. unfold bind, modify, ret. simpl.
  rewrite form_present. simpl. rewrite updateNth_twice. reflexivity.
Qed.

End FieldValidation.

Lemma negb_forallb (A : Type) (q : A -> bool) (l : list A) :
  negb (forallb q l) = existsb (fun x => negb (q x)) l.
Proof.
  induction l as [|x l IH]; simpl; [reflexivity|].
  now rewrite negb_andb, IH.
Qed.

(** The phone rule of the script, by the characters of the value. *)
Lemma phone_rule (v : JsString.t) :
  JsString.truthy v && negb (RegExp.test phoneRegex v)
  = JsString.truthy v && existsb (fun c => negb (phoneChar c)) v.
Proof.
  unfold phoneRegex. rewrite RegExpFacts.test_plus_class.
  destruct (JsString.truthy v); simpl; [apply negb_forallb | reflexivity].
Qed.

Section ValidateField.

Import Dom.

Variable w : World.
Variable f : Form.
Variable i : nat.
Variable fd : Field.
Variable p : nat.
Hypothesis form_present : form w = Some f.
Hypothesis field_present : nth_error (fields f) i = Some fd.
Hypothesis parent_present : parentElement fd = Some p.

(** The state [clearFieldError] leaves, in which the rules are checked. *)
Let f1 : Form :=
  mkForm (formClassList f) (updateNth i (mapFieldElement cleared) (fields f))
         (fun q => if Nat.eqb q p then tl (fieldErrors f q) else fieldErrors f q)
         (banners f).

Let w1 : World := set_form (Some f1) w.

Lemma failing_rule_run (message : string) :
  exists f',
    bind (showFieldError i message) (fun _ => ret false) w1
      = (Normal false, set_form (Some f') w) /\
    formClassList f' = formClassList f /\
    banners f' = banners f /\
    fields f' = updateNth i (mapFieldElement (fun e => flagged (cleared e))) (fields f) /\
    forall q, fieldErrors f' q =
              if Nat.eqb q p then showError message (tl (fieldErrors f q))
              else fieldErrors f q.
Proof.
  assert (F1 : form w1 = Some f1) by reflexivity.
  assert (N1 : nth_error (fields f1) i = Some (mapFieldElement cleared fd)).
  { unfold f1. simpl. now rewrite nth_error_updateNth_eq, field_present. }
  erewrite bind_run
    by (apply (@showFieldError_run w1 f1 i _ p F1 N1); simpl; exact parent_present).
  eexists. split; [reflexivity|]. simpl.
  repeat split.
  - now rewrite updateNth_twice.
  - intro q. now destruct (Nat.eqb q p).
Qed.

(** What [validateField] does to a field that has a parent element: the
    completion tells whether the rules accept the field, and the form is
    changed in the marks of that field and in the error nodes of its
    parent only. *)
Lemma validateField_spec :
  exists f',
    validateField i w
      = (Normal (match verdict fd with Valid => true | _ => false end),
         set_form (Some f') w) /\
    validated (verdict fd) i p f f'.
Proof.
  unfold validateField. erewrite bind_run by apply (@getField_run w f i fd form_present field_present).
  erewrite bind_run
    by apply (@clearFieldError_run w f i fd p form_present field_present parent_present).
  fold f1. fold w1.
  unfold validated, verdict, verdictWith, isRequired.
  destruct (hasAttribute "required" (attributes (fieldElement fd))
            && negb (JsString.truthy (JsString.trim (value fd)))).
  { destruct (failing_rule_run "This field is required") as (f' & E & H).
    exists f'. split; [exact E | exact H]. }
  destruct (String.eqb (type fd) "email" && JsString.truthy (JsString.trim (value fd))
            && negb (RegExp.test emailRegex (JsString.trim (value fd)))).
  { destruct (failing_rule_run "Please enter a valid email address") as (f' & E & H).
    exists f'. split; [exact E | exact H]. }
  rewrite <- !andb_assoc, phone_rule, !andb_assoc.
  destruct (String.eqb (type fd) "tel" && JsString.truthy (JsString.trim (value fd))
            && existsb (fun c => negb (phoneChar c)) (JsString.trim (value fd))).
  { destruct (failing_rule_run "Please enter a valid phone number") as (f' & E & H).
    exists f'. split; [exact E | exact H]. }
  exists f1. unfold ret. split; [reflexivity|]. simpl.
  repeat split.
Qed.

End ValidateField.

(* ================================================================== *)
(** * Form validation: the rules *)
(* ================================================================== *)

Section ValidationRules.

Import Dom.

Lemma literal_denotes (c : N) (s : JsString.t) :
  RegExp.denotes (literal c) s <-> s = [c].
Proof.
  unfold literal. split.
  - intro H. inversion H as [|? c' E| | | | |]; subst.
    apply N.eqb_eq in E. now subst.
  - intros ->. constructor. apply N.eqb_refl.
Qed.

(** The email pattern accepts exactly the strings of the shape
    [local@domain.tld]. *)
Lemma emailRegex_shape (v : JsString.t) :
  RegExp.test emailRegex v = true <-> emailShaped v.
Proof.
  rewrite RegExpFacts.test_denotes. unfold emailRegex, emailShaped. split.
  - intro H.
    inversion H as [| |? ? a r1 Da D1| | | |]; subst.
    inversion D1 as [| |? ? at1 r2 Dat D2| | | |]; subst.
    inversion D2 as [| |? ? b r3 Db D3| | | |]; subst.
    inversion D3 as [| |? ? dot c Ddot Dc| | | |]; subst.
    apply literal_denotes in Dat, Ddot. subst.
    apply RegExpFacts.plus_class in Da, Db, Dc.
    exists a, b, c. tauto.
  - intros (a & b & c & -> & Ha & Hb & Hc & Fa & Fb & Fc).
    constructor; [now apply RegExpFacts.plus_class|].
    constructor; [now apply literal_denotes|].
    constructor; [now apply RegExpFacts.plus_class|].
    constructor; [now apply literal_denotes|].
    now apply RegExpFacts.plus_class.
Qed.

(** The examples of the specification. *)
Example email_not_an_email :
  RegExp.test emailRegex (JsString.ofString "not-an-email") = false.
Proof. reflexivity. Qed.

Example email_a_b_co :
  RegExp.test emailRegex (JsString.ofString "a@b.co") = true.
Proof. reflexivity. Qed.

Variable w : World.
Variable f : Form.
Variable i : nat.
Variable fd : Field.
Variable p : nat.
Hypothesis form_present : form w = Some f.
Hypothesis field_present : nth_error (fields f) i = Some fd.
Hypothesis parent_present : parentElement fd = Some p.




End ValidationRules.



(* ================================================================== *)
(** * Form validation: trimming *)
(* ================================================================== *)

Section Trimming.

Lemma trimStart_whitespace (s : JsString.t) :
  forallb JsString.isWhiteSpace s = true -> JsString.trimStart s = [].
Proof.
  induction s as [|c s IH]; simpl; [reflexivity|].
  intro H. apply andb_true_iff in H. destruct H as [Hc Hs].
  rewrite Hc. auto.
Qed.

(** A string of white space only trims to the empty string. *)
Lemma trim_whitespace (s : JsString.t) :
  forallb JsString.isWhiteSpace s = true -> JsString.trim s = [].
Proof.
  intro H. unfold JsString.trim. now rewrite trimStart_whitespace.
Qed.

Lemma trimStart_idempotent (s : JsString.t) :
  JsString.trimStart (JsString.trimStart s) = JsString.trimStart s.
Proof.
  induction s as [|c s IH]; simpl; [reflexivity|].
  destruct (JsString.isWhiteSpace c) eqn:E; [exact IH|].
  simpl. now rewrite E.
Qed.

Lemma trimStart_snoc (s : JsString.t) (c : N) :
  JsString.isWhiteSpace c = false ->
  JsString.trimStart (s ++ [c]) = JsString.trimStart s ++ [c].
Proof.
  intro H. induction s as [|x s IH]; simpl.
  - now rewrite H.
  - destruct (JsString.isWhiteSpace x); [exact IH | reflexivity].
Qed.

Lemma trimEnd_cons (c : N) (s : JsString.t) :
  JsString.isWhiteSpace c = false ->
  JsString.trimEnd (c :: s) = c :: JsString.trimEnd s.
Proof.
  intro H. unfold JsString.trimEnd. simpl.
  rewrite trimStart_snoc by exact H. rewrite rev_app_distr. reflexivity.
Qed.

(** Trimming a trimmed string changes nothing. *)
Lemma trim_idempotent (s : JsString.t) :
  JsString.trim (JsString.trim s) = JsString.trim s.
Proof.
  unfold JsString.trim.
  assert (S : forall t, JsString.trimStart t = t ->
                        JsString.trimStart (JsString.trimEnd t) = JsString.trimEnd t).
  { intros [|c t] Ht; [reflexivity|].
    simpl in Ht. destruct (JsString.isWhiteSpace c) eqn:E.
    - exfalso.
      assert (L : (List.length (JsString.trimStart t) <= List.length t)%nat).
      { clear. induction t as [|x t IH]; simpl; [lia|].
        destruct (JsString.isWhiteSpace x); simpl; lia. }
      rewrite Ht in L. simpl in L. lia.
    - rewrite trimEnd_cons by exact E. simpl. now rewrite E. }
  rewrite S by apply trimStart_idempotent.
  unfold JsString.trimEnd at 1 2. rewrite rev_involutive.
  now rewrite trimStart_idempotent.
Qed.



Lemma forallb_rev_whitespace (s : JsString.t) :
  forallb JsString.isWhiteSpace s = true -> forallb JsString.isWhiteSpace (rev s) = true.
Proof.
  intro H. rewrite forallb_forall in *. intros c Hc. apply H. now apply in_rev.
Qed.


Lemma trimStart_split (s : JsString.t) :
  exists ws,
    s = ws ++ JsString.trimStart s /\ forallb JsString.isWhiteSpace ws = true /\
    match JsString.trimStart s with
    | [] => True
    | c :: _ => JsString.isWhiteSpace c = false
    end.
Proof.
  induction s as [|c s (ws & E & W & N)]; simpl.
  - exists []. auto.
  - destruct (JsString.isWhiteSpace c) eqn:C.
    + exists (c :: ws). simpl. rewrite C, W. split; [now rewrite <- E | auto].
    + exists []. auto.
Qed.

(** Every value is white space, a core without white space at either
    end, and white space. *)
Lemma every_value_is_padded (s : JsString.t) :
  exists leading core trailing,
    s = leading ++ core ++ trailing /\
    forallb JsString.isWhiteSpace leading = true /\
    forallb JsString.isWhiteSpace trailing = true /\
    noOuterWhiteSpace core.
Proof.
  destruct (trimStart_split s) as (l & El & Wl & Nl).
  destruct (trimStart_split (rev (JsString.trimStart s))) as (r & Er & Wr & Nr).
  exists l, (JsString.trim s), (rev r).
  assert (T : JsString.trimStart s = JsString.trim s ++ rev r).
  { unfold JsString.trim, JsString.trimEnd. rewrite <- rev_app_distr, <- Er.
    now rewrite rev_involutive. }
  split; [now rewrite <- T|]. split; [exact Wl|].
  split; [now apply forallb_rev_whitespace|].
  unfold noOuterWhiteSpace. split.
  - destruct (JsString.trimStart s) as [|c t] eqn:Q.
    + destruct (JsString.trim s); [exact I | discriminate T].
    + destruct (JsString.trim s) as [|c' t'] eqn:Q'; [exact I|].
      simpl in T. injection T as <- _. exact Nl.
  - unfold JsString.trim, JsString.trimEnd. rewrite rev_involutive. exact Nr.
Qed.


Variable w : World.
Variable f : Form.
Variable i : nat.
Variable fd : Field.
Variable p : nat.
Hypothesis form_present : form w = Some f.
Hypothesis field_present : nth_error (fields f) i = Some fd.
Hypothesis parent_present : parentElement fd = Some p.


End Trimming.


(** Surrounding white space does not make an email address invalid. *)
Example padded_email_is_accepted :
  result (validateField 0)
         (Sample.withFields [Sample.input "email" true "  a@b.co  " (Some 0)])
  = Normal true.
Proof. reflexivity. Qed.

(* ================================================================== *)
(** * Form validation: the whole form *)
(* ================================================================== *)

Section WholeForm.

Import Dom.

Lemma set_form_same (w : World) (f : Form) : form w = Some f -> set_form (Some f) w = w.
Proof. destruct w. simpl. now intros ->. Qed.

Lemma sameFormData_refl (f : Form) : sameFormData f f.
Proof. now repeat split. Qed.

Lemma sameFormData_trans (f g h : Form) :
  sameFormData f g -> sameFormData g h -> sameFormData f h.
Proof.
  intros (A1 & A2 & A3) (B1 & B2 & B3). repeat split; congruence.
Qed.

Lemma fieldData_mapFieldElement (g : Element -> Element) (fd : Field) :
  (forall e, getAttribute "required" (attributes (g e)) = getAttribute "required" (attributes e)) ->
  fieldData (mapFieldElement g fd) = fieldData fd.
Proof.
  intro H. unfold fieldData, isRequired, hasAttribute, mapFieldElement. simpl.
  now rewrite H.
Qed.

Lemma validated_sameFormData (v : Verdict) (i p : nat) (f f' : Form) :
  validated v i p f f' -> sameFormData f f'.
Proof.
  intros (A & B & C & _). repeat split; auto. rewrite C.
  apply map_updateNth. intro fd.
  destruct (errorMessage v).
  - change (mapFieldElement (fun e => flagged (cleared e)) fd)
      with (mapFieldElement flagged (mapFieldElement cleared fd)).
    now rewrite fieldData_flagged, fieldData_cleared.
  - apply fieldData_cleared.
Qed.

Lemma passes_fieldData (a b : Field) : fieldData a = fieldData b -> passes a -> passes b.
Proof.
  unfold fieldData, passes, verdict, verdictWith.
  intro E. injection E as Ev _ Et Ep Er. now rewrite Ev, Et, Ep, Er.
Qed.

Lemma sameFormData_nth (f f' : Form) (i : nat) (fd : Field) :
  sameFormData f f' -> nth_error (fields f) i = Some fd ->
  exists fd', nth_error (fields f') i = Some fd' /\ fieldData fd' = fieldData fd.
Proof.
  intros (_ & _ & E) H.
  assert (M : nth_error (map fieldData (fields f')) i = Some (fieldData fd)).
  { rewrite E. now apply map_nth_error. }
  rewrite nth_error_map in M.
  destruct (nth_error (fields f') i) as [fd'|]; [|discriminate].
  exists fd'. simpl in M. split; [reflexivity | congruence].
Qed.

Lemma sameFormData_sym (f f' : Form) : sameFormData f f' -> sameFormData f' f.
Proof. intros (A & B & C). repeat split; congruence. Qed.

Lemma allPass_sameFormData (f f' : Form) (inputs : list nat) :
  sameFormData f f' -> allPass f inputs -> allPass f' inputs.
Proof.
  intros S H i Hi. destruct (H i Hi) as (fd & N & P).
  destruct (sameFormData_nth _ S N) as (fd' & N' & D).
  exists fd'. split; [exact N'|]. now apply (@passes_fieldData fd).
Qed.

(** Whatever happens to one field, the data of the form stay as they are;
    the completion is [true] exactly for a field that passes. *)
Lemma validateField_frame (w : World) (f : Form) (i : nat) :
  form w = Some f ->
  exists r f',
    validateField i w = (r, set_form (Some f') w) /\
    sameFormData f f' /\
    (r = Normal true <-> allPass f [i]).
Proof.
  intro Hf.
  destruct (nth_error (fields f) i) as [fd|] eqn:Hi.
  - destruct (parentElement fd) as [p|] eqn:Hp.
    + destruct (@validateField_spec w f i fd p Hf Hi Hp) as (f' & E & V).
      exists (Normal (match verdict fd with Valid => true | _ => false end)), f'.
      split; [exact E|]. split; [now apply (@validated_sameFormData (verdict fd) i p)|].
      split.
      * intros R i' [<- | []]. exists fd. split; [exact Hi|].
        split; [|congruence]. destruct (verdict fd); congruence.
      * intro A. destruct (A i (or_introl eq_refl)) as (fd' & N & (V' & _)).
        assert (fd' = fd) by congruence. subst fd'. now rewrite V'.
    + exists (Throw (TypeError "Cannot read properties of null (reading 'querySelector')")).
      eexists. split; [|split].
      * unfold validateField. erewrite bind_run by apply (@getField_run w f i fd Hf Hi).
        apply bind_throw. unfold clearFieldError.
        erewrite bind_run by apply (@getField_run w f i fd Hf Hi).
        unfold updateFieldElement, updateForm, getParentElement, bind, modify, throw.
        simpl. rewrite Hf, Hp. simpl. reflexivity.
      * repeat split. simpl. rewrite !map_updateNth; auto; intro x;
          apply fieldData_mapFieldElement; intro e; simpl;
          try reflexivity; now apply getAttribute_removeAttribute_other.
      * split; [discriminate|].
        intro A. destruct (A i (or_introl eq_refl)) as (fd' & N & (_ & P)).
        assert (fd' = fd) by congruence. subst fd'. congruence.
  - exists (Throw (TypeError "Cannot read properties of undefined (reading 'value')")), f.
    split; [|split].
    + rewrite (set_form_same w Hf). unfold validateField. apply bind_throw.
      unfold getField, getForm, bind, throw. now rewrite Hf, Hi.
    + apply sameFormData_refl.
    + split; [discriminate|].
      intro A. destruct (A i (or_introl eq_refl)) as (fd' & N & _). congruence.
Qed.

Lemma validateInputs_frame (inputs : list nat) :
  forall (w : World) (f : Form) (isValid : bool),
    form w = Some f ->
    exists r f',
      validateInputs inputs isValid w = (r, set_form (Some f') w) /\
      sameFormData f f' /\
      (r = Normal true <-> isValid = true /\ allPass f inputs).
Proof.
  induction inputs as [|i inputs IH]; intros w f isValid Hf.
  - exists (Normal isValid), f. split; [|split].
    + now rewrite (set_form_same w Hf).
    + apply sameFormData_refl.
    + split.
      * intro R. injection R as ->. split; [reflexivity|]. intros i [].
      * intros [-> _]. reflexivity.
  - destruct (@validateField_frame w f i Hf) as (r1 & f1 & E1 & S1 & R1).
    simpl. destruct r1 as [ok|e].
    + erewrite bind_run by exact E1.
      destruct (IH (set_form (Some f1) w) f1 (if negb ok then false else isValid) eq_refl)
        as (r & f' & E & S & R).
      exists r, f'. split; [exact E|]. split; [now apply (sameFormData_trans S1)|].
      rewrite R. split.
      * intros [B A]. destruct ok; simpl in B; [|discriminate].
        split; [exact B|].
        intros j [<- | Hj].
        -- apply (proj1 R1 eq_refl). now left.
        -- apply (allPass_sameFormData (sameFormData_sym S1) A). exact Hj.
      * intros [B A].
        assert (O : Normal ok = Normal true).
        { apply R1. intros j [<- | []]. apply A. now left. }
        injection O as ->. simpl. split; [exact B|].
        apply (allPass_sameFormData S1). intros j Hj. apply A. now right.
    + exists (Throw e), f1. split; [now apply bind_throw|]. split; [exact S1|].
      split; [discriminate|].
      intros [_ A]. exfalso.
      assert (O : @Throw bool e = Normal true).
      { apply R1. intros j [<- | []]. apply A. now left. }
      discriminate O.
Qed.

Lemma allPass_all_fields (f : Form) :
  allPass f (seq 0 (List.length (fields f))) <-> (forall fd, In fd (fields f) -> passes fd).
Proof.
  split.
  - intros A fd Hin. apply In_nth_error in Hin. destruct Hin as (i & Hi).
    assert (L : (i < List.length (fields f))%nat)
      by (apply nth_error_Some; congruence).
    destruct (A i) as (fd' & N & P); [apply in_seq; lia|].
    assert (fd' = fd) by congruence. now subst.
  - intros A i Hi. apply in_seq in Hi.
    destruct (nth_error (fields f) i) as [fd|] eqn:N.
    + exists fd. split; [reflexivity|]. apply A. now apply (nth_error_In _ i).
    + apply nth_error_None in N. lia.
Qed.

(** [validateForm] answers [true] exactly when every field passes, and
    changes nothing of the form but error marks. *)
Lemma validateForm_frame (w : World) (f : Form) :
  form w = Some f ->
  exists r f',
    validateForm w = (r, set_form (Some f') w) /\
    sameFormData f f' /\
    (r = Normal true <-> forall fd, In fd (fields f) -> passes fd).
Proof.
  intro Hf. unfold validateForm.
  assert (G : getForm w = (Normal f, w)) by (unfold getForm; now rewrite Hf).
  erewrite bind_run by exact G.
  destruct (@validateInputs_frame (seq 0 (List.length (fields f))) w f true Hf)
    as (r & f' & E & S & R).
  exists r, f'. split; [exact E|]. split; [exact S|].
  rewrite R, allPass_all_fields. tauto.
Qed.

End WholeForm.

(* ================================================================== *)
(** * Form submission *)
(* ================================================================== *)

Section Submission.

Import Dom.

Variable w : World.
Variable f : Form.
Hypothesis form_present : form w = Some f.

(** [showFormSuccess]: the form is marked, the first banner of the form
    (made now when there was none) is the success element, and one timer
    of 5000 ms is set for it. *)
Lemma showFormSuccess_run :
  exists w' b rest,
    showFormSuccess w = (Normal tt, w') /\
    form w' = Some (mkForm (add CLASSES.FORM_SUCCESS (formClassList f)) (fields f)
                           (fieldErrors f) (b :: rest)) /\
    (banners f = b :: rest \/
     banners f = [] /\ rest = [] /\ b = mkBanner (nextId w) (Some "status") successMessage) /\
    timers w' = timers w ++ [mkTimer 5000 (FormSuccessTimeout (bannerId b))] /\
    effects w' = effects w /\
    console w' = console w.
Proof.
  unfold showFormSuccess, getForm, updateForm, setTimeout.
  unfold bind at 1. rewrite form_present.
  destruct (banners f) as [|b rest] eqn:B.
  - eexists. exists (mkBanner (nextId w) (Some "status") successMessage), [].
    run_js. rewrite form_present. simpl. rewrite B. repeat split. auto.
  - eexists. exists b, rest.
    run_js. rewrite form_present. simpl. rewrite B. repeat split. auto.
Qed.


End Submission.

Section SubmitHandler.

Import Dom.

Variable w : World.

(** The world once [event.preventDefault()] has run. *)
Let w0 : World := set_effects (effects w ++ [PreventDefault]) w.

(** The three ways a submission ends: some field fails, every field
    passes, or validation throws and the handler logs it. *)
Lemma handleFormSubmit_cases (f : Form) :
  form w = Some f ->
  exists f',
    sameFormData f f' /\
    ((~ (forall fd, In fd (fields f) -> passes fd) /\
      ((handleFormSubmit w = (Normal tt, set_form (Some f') w0)) \/
       exists e,
         handleFormSubmit w =
           (Normal tt,
            set_console (console w ++ [ConsoleError "Form submit handler" e])
                        (set_form (Some f') w0)))) \/
     ((forall fd, In fd (fields f) -> passes fd) /\
      exists w2,
        showFormSuccess
          (set_console (console w ++ [ConsoleLog "Form is valid and ready to submit"])
                       (set_form (Some f') w0)) = (Normal tt, w2) /\
        handleFormSubmit w = (Normal tt, w2))).
Proof.
  intro Hf.
  destruct (@validateForm_frame w0 f Hf) as (r & f' & E & S & R).
  exists f'. split; [exact S|].
  unfold handleFormSubmit.
  erewrite bind_run with (w' := w0) by reflexivity.
  unfold tryCatch.
  destruct r as [[|]|e].
  - right. split; [now apply R|].
    destruct (@showFormSuccess_run
                (set_console (console w ++ [ConsoleLog "Form is valid and ready to submit"])
                             (set_form (Some f') w0)) f' eq_refl)
      as (w2 & _ & _ & E2 & _).
    exists w2. split; [exact E2|].
    erewrite bind_run by exact E. simpl.
    erewrite bind_run with (w' := set_console
                                    (console w ++ [ConsoleLog "Form is valid and ready to submit"])
                                    (set_form (Some f') w0)) by reflexivity.
    now rewrite E2.
  - left. split; [intro A; apply R in A; discriminate|].
    left. erewrite bind_run by exact E. reflexivity.
  - left. split; [intro A; apply R in A; discriminate|].
    right. exists e. erewrite bind_throw by exact E. reflexivity.
Qed.

Lemma handleFormSubmit_without_form :
  form w = None ->
  exists e,
    handleFormSubmit w =
      (Normal tt, set_console (console w ++ [ConsoleError "Form submit handler" e]) w0).
Proof.
  intro Hf. eexists.
  unfold handleFormSubmit, validateForm, getForm. run_js. rewrite Hf. reflexivity.
Qed.

Lemma sameFormData_values (f f' : Form) :
  sameFormData f f' ->
  map value (fields f') = map value (fields f) /\
  map defaultValue (fields f') = map defaultValue (fields f).
Proof.
  intros (_ & _ & E). split.
  - apply (f_equal (map (fun d => fst (fst (fst (fst d)))))) in E.
    now rewrite !map_map in E.
  - apply (f_equal (map (fun d => snd (fst (fst (fst d)))))) in E.
    now rewrite !map_map in E.
Qed.

(** C6. The submit handler always prevents the default submission (and
    requests nothing else of the browser), for a valid and for an invalid
    form; it never changes a field value; and when some field is invalid
    it shows no success banner: the banners, the form's classes and the
    timers stay as they were. *)
Theorem handleFormSubmit_prevents_default_and_blocks_invalid :
  let w' := after handleFormSubmit w in
  result handleFormSubmit w = Normal tt /\
  effects w' = effects w ++ [PreventDefault] /\
  forall f, form w = Some f ->
    exists f',
      form w' = Some f' /\
      map value (fields f') = map value (fields f) /\
      ((exists fd, In fd (fields f) /\ verdict fd <> Valid) ->
       banners f' = banners f /\
       formClassList f' = formClassList f /\
       timers w' = timers w).
Proof.
  intro w'. unfold w', after, result.
  destruct (form w) as [f|] eqn:Hf.
  - destruct (handleFormSubmit_cases Hf) as (f1 & S & [[N [E | [e E]]] | [A E]]).
    + rewrite E. simpl. repeat split.
      intros f0 F0. injection F0 as <-. exists f1.
      split; [reflexivity|]. split; [apply (sameFormData_values S)|].
      intros _. destruct S as (S1 & S2 & _). auto.
    + rewrite E. simpl. repeat split.
      intros f0 F0. injection F0 as <-. exists f1.
      split; [reflexivity|]. split; [apply (sameFormData_values S)|].
      intros _. destruct S as (S1 & S2 & _). auto.
    + destruct E as (w2' & E2' & E). rewrite E.
      destruct (@showFormSuccess_run
                  (set_console (console w ++ [ConsoleLog "Form is valid and ready to submit"])
                               (set_form (Some f1) w0)) f1 eq_refl)
        as (w2 & b & rest & E2 & F2 & _ & T2 & X2 & C2).
      assert (w2' = w2) by congruence. subst w2'.
      simpl. split; [reflexivity|]. split; [exact X2|].
      intros f0 F0. injection F0 as <-. eexists. split; [exact F2|]. simpl.
      split; [apply (sameFormData_values S)|].
      intros (fd & Hin & V). exfalso. apply V. now apply A.
  - destruct (handleFormSubmit_without_form Hf) as (e & E).
    rewrite E. simpl. repeat split. intros f0 F0. discriminate F0.
Qed.



End SubmitHandler.

(* ================================================================== *)
(** * Lazy images *)
(* ================================================================== *)

Section LazyImages.

Import Dom.

Variable w : World.
Variable i : nat.
Variable image : Image.
Hypothesis image_present : nth_error (images w) i = Some image.

(** C7 (amended). An image that has a non-empty [src] and is already
    complete when [loadImage] runs carries the loaded class as soon as
    [loadImage] returns, without any [load] event. *)
Theorem loadImage_marks_complete_image_with_src (s : string) :
  src image = Some s -> s <> "" -> complete image = true ->
  result (loadImage i) w = Normal tt /\
  exists image',
    nth_error (images (after (loadImage i) w)) i = Some image' /\
    contains CLASSES.LAZY_LOADED (imageClassList image') = true.
Proof.
  intros Hs Hne Hc. unfold loadImage, result, after, tryCatch.
  rewrite image_present.
  destruct (contains CLASSES.LAZY_LOADED (imageClassList image)) eqn:L.
  - simpl. split; [reflexivity|]. exists image. auto.
  - rewrite Hs. apply String.eqb_neq in Hne. rewrite Hne, Hc.
    unfold updateImage. run_js. split; [reflexivity|].
    rewrite !nth_error_updateNth_eq, image_present. simpl.
    eexists. split; [reflexivity|]. simpl. apply DomFacts.contains_add.
Qed.

End LazyImages.

Lemma loadImage_marks_complete_image_with_src_witness :
  let W := set_images [Sample.loadedImage] Sample.world in
  result (loadImage 0) W = Normal tt /\
  exists image',
    nth_error (images (after (loadImage 0) W)) 0 = Some image' /\
    Dom.contains CLASSES.LAZY_LOADED (imageClassList image') = true.
Proof.
  apply (@loadImage_marks_complete_image_with_src
           (set_images [Sample.loadedImage] Sample.world) 0 Sample.loadedImage
           eq_refl "hero.jpg" eq_refl).
  - discriminate.
  - reflexivity.
Defined.

(** C7 as worded fails for a complete image without a [src] attribute
    (one loaded through [srcset]): [loadImage] returns at its guard and
    the image is left without the loaded class. *)
Lemma loadImage_skips_complete_image_without_src :
  let W := set_images [Sample.srcsetImage] Sample.world in
  complete Sample.srcsetImage = true /\
  result (loadImage 0) W = Normal tt /\
  images (after (loadImage 0) W) = [Sample.srcsetImage] /\
  Dom.contains CLASSES.LAZY_LOADED (imageClassList Sample.srcsetImage) = false.
Proof. repeat split. Qed.

(* ================================================================== *)
(** * Failures are contained *)
(* ================================================================== *)

Section ErrorContainment.

Lemma neverThrows_run (m : M unit) (w : World) :
  neverThrows m -> m w = (Normal tt, after m w).
Proof.
  intro H. destruct (H w) as (a & R). unfold result, after in *.
  destruct (m w) as [c w']. simpl in *. subst c. now destruct a.
Qed.

(** [try { ... } catch (error) { logError(context, error) }] lets nothing out. *)
Lemma tryCatch_neverThrows (body : M unit) (context : string) :
  neverThrows (tryCatch body (logError context)).
Proof.
  intro w. unfold result, tryCatch. destruct (body w) as [[a|e] w']; simpl.
  - now exists a.
  - now exists tt.
Qed.






(** A page without the [.header-container] the menu code dereferences:
    the menu initializer fails and is logged, and the features after it
    are set up all the same. *)
Example initializeFeatures_survives_missing_container :
  let w' := after initializeFeatures Sample.worldWithoutContainer in
  result initializeFeatures Sample.worldWithoutContainer = Normal tt /\
  console w' =
    [ConsoleError "Mobile menu initialization"
       (TypeError "Cannot read properties of null (reading 'insertBefore')");
     ConsoleLog successLog] /\
  menuToggle w' = None /\
  option_map Dom.classList (scrollButton w') = Some ["scroll-to-top"] /\
  In (mkListener TWindow "scroll" (HDebounced HScroll CONFIG.DEBOUNCE_DELAY)) (listeners w') /\
  In (mkListener TSkipLink "click" HSkipLink) (listeners w').
Proof.
  vm_compute. repeat split; auto 20.
Qed.

End ErrorContainment.

(* ================================================================== *)
(** * The theorems at sample pages *)
(* ================================================================== *)

Lemma handleScroll_visible_iff_above_threshold_witness :
  let b := Dom.mkElement ["scroll-to-top"] [("aria-label", "Scroll to top")] in
  let scrolledTo (y : Q) :=
    mkWorld Sample.page (mkViewport y y 1024) (nav Sample.world) None [] (targets Sample.world)
            [] [] (Some b) None [] [] [] [] [] 0 in
  option_map (Dom.hasClass "visible") (scrollButton (after handleScroll (scrolledTo 500%Q)))
    = Some true /\
  option_map (Dom.hasClass "visible") (scrollButton (after handleScroll (scrolledTo 300%Q)))
    = Some false /\
  option_map (Dom.hasClass "visible") (scrollButton (after handleScroll (scrolledTo 0%Q)))
    = Some false.
Proof.
  intros b scrolledTo.
  destruct (@handleScroll_visible_iff_above_threshold (scrolledTo 500%Q) b eq_refl)
    as (b1 & E1 & _ & _ & H1).
  destruct (@handleScroll_visible_iff_above_threshold (scrolledTo 300%Q) b eq_refl)
    as (b2 & E2 & _ & _ & H2).
  destruct (@handleScroll_visible_iff_above_threshold (scrolledTo 0%Q) b eq_refl)
    as (b3 & E3 & _ & _ & H3).
  unfold after. rewrite E1, E2, E3. simpl.
  destruct (H1 (or_introl (Qeq_refl _))) as (_ & _ & _ & V1).
  destruct (H2 (or_introl (Qeq_refl _))) as (_ & _ & V2 & _).
  destruct (H3 (or_introl (Qeq_refl _))) as (_ & V3 & _).
  rewrite (V1 eq_refl), (V2 (Qeq_refl _)), (V3 (Qeq_refl _)). repeat split.
Defined.

Lemma toggle_open_close_restores_closed_state_witness :
  menuClosed Sample.closedMenuWorld /\
  after toggleMobileMenu (after toggleMobileMenu Sample.closedMenuWorld)
    = Sample.closedMenuWorld.
Proof.
  assert (C : menuClosed Sample.closedMenuWorld).
  { eexists. eexists. repeat split. }
  split; [exact C|].
  apply (@toggle_open_close_restores_closed_state Sample.closedMenuWorld C).
Defined.

Lemma menu_operations_preserve_synchronization_witness :
  menuSynchronized Sample.closedMenuWorld /\
  menuSynchronized (after (runMenuOperation OpToggle) Sample.closedMenuWorld).
Proof.
  assert (S : menuSynchronized Sample.closedMenuWorld).
  { intros n t En Et. injection En as <-. injection Et as <-.
    split; split; intro H; discriminate H. }
  split; [exact S|].
  apply (@menu_operations_preserve_synchronization OpToggle Sample.closedMenuWorld S).
Defined.

Lemma handleSmoothScroll_noop_when_unresolved_witness :
  let link := mkLink (Some "#pricing") in
  unresolvedLink (page Sample.world) link /\
  result (handleSmoothScroll link) Sample.world = Normal tt /\
  effects (after (handleSmoothScroll link) Sample.world) = effects Sample.world.
Proof.
  intro link.
  assert (U : unresolvedLink (page Sample.world) link).
  { right. intros id H. discriminate H. }
  split; [exact U|].
  destruct (@handleSmoothScroll_noop_when_unresolved Sample.world link U)
    as (R & E & _).
  split; [exact R | exact E].
Defined.


Lemma handleFormSubmit_prevents_default_and_blocks_invalid_witness :
  let fd := Sample.input "email" true "not-an-email" (Some 0) in
  let W := Sample.withFields [fd] in
  effects (after handleFormSubmit W) = effects W ++ [PreventDefault] /\
  exists f',
    form (after handleFormSubmit W) = Some f' /\
    map value (fields f') = [value fd] /\
    banners f' = [] /\
    timers (after handleFormSubmit W) = timers W.
Proof.
  intros fd W.
  destruct (@handleFormSubmit_prevents_default_and_blocks_invalid W) as (_ & E & H).
  split; [exact E|].
  destruct (H (mkForm [] [fd] (fun _ => []) []) eq_refl) as (f' & F & V & I).
  exists f'. split; [exact F|]. split; [exact V|].
  destruct I as (B & _ & T).
  - exists fd. split; [now left | discriminate].
  - split; [exact B | exact T].
Defined.


(* ================================================================== *)
(** * More on the mobile menu *)
(* ================================================================== *)

Section MenuBehaviour.

Import Dom.

Local Abbreviation OPEN := CLASSES.MOBILE_MENU_OPEN.

Lemma contains_add_other (c d : string) (cl : list string) :
  String.eqb c d = false -> contains c (add d cl) = contains c cl.
Proof.
  intro H. unfold add. destruct (contains d cl); [reflexivity|].
  rewrite DomFacts.contains_app. simpl. rewrite H. now rewrite !orb_false_r.
Qed.

Lemma contains_remove_other (c d : string) (cl : list string) :
  String.eqb c d = false -> contains c (remove d cl) = contains c cl.
Proof.
  intro H. unfold contains, remove. induction cl as [|x cl IH]; simpl; [reflexivity|].
  destruct (String.eqb d x) eqn:E; simpl.
  - apply String.eqb_eq in E. subst x. now rewrite H.
  - now rewrite IH.
Qed.

Lemma remove_add_same (c : string) (cl : list string) :
  remove c (add c cl) = remove c cl.
Proof.
  unfold add. destruct (contains c cl); [reflexivity|].
  unfold remove. rewrite filter_app. simpl. rewrite String.eqb_refl. simpl.
  apply app_nil_r.
Qed.

Lemma add_idempotent (c : string) (cl : list string) : add c (add c cl) = add c cl.
Proof.
  unfold add at 1. now rewrite DomFacts.contains_add.
Qed.

Lemma remove_idempotent (c : string) (cl : list string) :
  remove c (remove c cl) = remove c cl.
Proof.
  apply DomFacts.remove_absent, DomFacts.contains_remove.
Qed.

Lemma closeMobileMenu_closes (w : World) (n t : Element) :
  nav w = Some n -> menuToggle w = Some t -> menuClosed (after closeMobileMenu w).
Proof.
  intros Hn Ht. unfold after. rewrite (closeMobileMenu_spec w Hn Ht). simpl.
  eexists. eexists. split; [reflexivity|]. split; [reflexivity|].
  unfold hasClass, getAttr, removeClass, setAttr. simpl.
  rewrite !DomFacts.contains_remove, DomFacts.getAttribute_setAttribute. auto.
Qed.

(** A resize to the breakpoint width or beyond closes the menu, whatever
    state it was in; below the breakpoint the handler changes nothing. *)
Theorem handleResize_closes_menu_from_breakpoint (w : World) (n t : Element) :
  nav w = Some n -> menuToggle w = Some t ->
  ((768 <= innerWidth (viewport w))%Z -> menuClosed (after handleResize w)) /\
  ((innerWidth (viewport w) < 768)%Z -> handleResize w = (Normal tt, w)).
Proof.
  intros Hn Ht. unfold after, handleResize.
  change CONFIG.MOBILE_BREAKPOINT with 768%Z.
  split; intro H.
  - apply Z.leb_le in H. rewrite H. now apply (@closeMobileMenu_closes w n t).
  - apply Z.leb_gt in H. now rewrite H.
Qed.

(** The Escape key, told by [key] or by the key code 27, closes the menu;
    any other key leaves the document as it is. *)
Theorem handleEscapeKey_closes_only_on_escape (event : KeyboardEvent) (w : World)
        (n t : Element) :
  nav w = Some n -> menuToggle w = Some t ->
  (key event = "Escape" \/ keyCode event = 27%Z ->
   menuClosed (after (handleEscapeKey event) w)) /\
  (key event <> "Escape" -> keyCode event <> 27%Z ->
   handleEscapeKey event w = (Normal tt, w)).
Proof.
  intros Hn Ht. unfold handleEscapeKey. split.
  - intros [H | H].
    + rewrite H. simpl. now apply (@closeMobileMenu_closes w n t).
    + rewrite H, orb_true_r. now apply (@closeMobileMenu_closes w n t).
  - intros Hk Hc. apply String.eqb_neq in Hk. apply Z.eqb_neq in Hc.
    now rewrite Hk, Hc.
Qed.

(** A click closes the open menu exactly when it lands outside both the
    navigation and the toggle; a click inside either of them, or any click
    while the menu is not open, changes nothing. *)
Theorem handleOutsideClick_closes_only_outside (event : ClickEvent) (w : World)
        (n t : Element) :
  nav w = Some n -> menuToggle w = Some t ->
  (hasClass OPEN n = true ->
   navContainsTarget event = false -> toggleContainsTarget event = false ->
   menuClosed (after (handleOutsideClick event) w)) /\
  (hasClass OPEN n = false \/
   navContainsTarget event = true \/ toggleContainsTarget event = true ->
   handleOutsideClick event w = (Normal tt, w)).
Proof.
  intros Hn Ht. unfold after, handleOutsideClick. rewrite Hn, Ht. split.
  - intros Ho Hi Hj. rewrite Ho, Hi, Hj. simpl.
    now apply (@closeMobileMenu_closes w n t).
  - intros [H | [H | H]]; rewrite H; simpl; try reflexivity;
      destruct (negb (hasClass OPEN n)); try reflexivity;
      now rewrite ?andb_false_r.
Qed.

(** How opening and closing compose: closing after opening is closing,
    and each of the two done twice is the same as done once. *)
Theorem open_close_compose (w : World) :
  closeMobileMenu (after openMobileMenu w) = closeMobileMenu w /\
  closeMobileMenu (after closeMobileMenu w) = closeMobileMenu w /\
  openMobileMenu (after openMobileMenu w) = openMobileMenu w.
Proof.
  unfold after, openMobileMenu, closeMobileMenu.
  destruct (nav w) as [n|] eqn:Hn; [destruct (menuToggle w) as [t|] eqn:Ht|];
    simpl; rewrite ?Hn, ?Ht; auto.
  unfold removeClass, addClass, setAttr, set_menuToggle, set_nav. simpl.
  rewrite !remove_add_same, !remove_idempotent, !add_idempotent,
    !DomFacts.setAttribute_setAttribute.
  auto.
Qed.

(** Opening, closing and toggling touch nothing but the open class of the
    navigation and of the toggle and the toggle's [aria-expanded]: every
    other class and attribute of the two, and the rest of the document,
    stay as they were. *)
Theorem menu_changes_only_its_marks (op : MenuOperation) (w : World) (n t : Element) :
  op = OpOpen \/ op = OpClose \/ op = OpToggle ->
  nav w = Some n -> menuToggle w = Some t ->
  let w' := after (runMenuOperation op) w in
  exists n' t',
    nav w' = Some n' /\ menuToggle w' = Some t' /\
    attributes n' = attributes n /\
    (forall c, c <> OPEN ->
       contains c (classList n') = contains c (classList n) /\
       contains c (classList t') = contains c (classList t)) /\
    (forall k, k <> "aria-expanded" -> getAttr k t' = getAttr k t) /\
    set_nav (nav w) (set_menuToggle (menuToggle w) w') = w.
Proof.
  intros Hop Hn Ht w'.
  assert (O : forall w0, w0 = after openMobileMenu w \/ w0 = after closeMobileMenu w ->
            exists n' t',
              nav w0 = Some n' /\ menuToggle w0 = Some t' /\
              attributes n' = attributes n /\
              (forall c, c <> OPEN ->
                 contains c (classList n') = contains c (classList n) /\
                 contains c (classList t') = contains c (classList t)) /\
              (forall k, k <> "aria-expanded" -> getAttr k t' = getAttr k t) /\
              set_nav (nav w) (set_menuToggle (menuToggle w) w0) = w).
  { intros w0 [-> | ->]; unfold after;
      [rewrite (openMobileMenu_spec w Hn Ht) | rewrite (closeMobileMenu_spec w Hn Ht)];
      simpl; (eexists; eexists; split; [reflexivity|]; split; [reflexivity|]);
      simpl; (split; [reflexivity|]); (split; [|split]).
    - intros c Hc. apply String.eqb_neq in Hc. now rewrite !contains_add_other.
    - intros k Hk. apply String.eqb_neq in Hk. unfold getAttr. simpl.
      now apply getAttribute_setAttribute_other.
    - unfold set_nav, set_menuToggle. simpl. apply DomFacts.world_eta.
    - intros c Hc. apply String.eqb_neq in Hc. now rewrite !contains_remove_other.
    - intros k Hk. apply String.eqb_neq in Hk. unfold getAttr. simpl.
      now apply getAttribute_setAttribute_other.
    - unfold set_nav, set_menuToggle. simpl. apply DomFacts.world_eta. }
  apply O. unfold w'. destruct Hop as [-> | [-> | ->]]; simpl; auto.
  unfold after. rewrite (toggleMobileMenu_spec w Hn Ht).
  destruct (hasClass OPEN n); auto.
Qed.

End MenuBehaviour.

(* ================================================================== *)
(** * Setting up the mobile menu *)
(* ================================================================== *)

Section MenuSetup.

Import Dom.

Variable w : World.

(** Without a header or without a navigation in it the menu feature does
    nothing at all. *)
Theorem initMobileMenu_dormant_without_navigation :
  header (page w) = None \/ nav w = None ->
  initMobileMenu w = (Normal tt, w).
Proof.
  unfold initMobileMenu, tryCatch.
  intros [H | H]; rewrite H; [reflexivity|].
  now destruct (header (page w)).
Qed.

(** A toggle the markup already has is used as it is: no button and no
    style block are made, and nothing is logged. *)
Theorem initMobileMenu_keeps_markup_toggle (h : Header) (n t : Element) :
  header (page w) = Some h -> nav w = Some n -> menuToggle w = Some t ->
  let w' := after initMobileMenu w in
  result initMobileMenu w = Normal tt /\
  menuToggle w' = Some t /\ nav w' = Some n /\
  styles w' = styles w /\ console w' = console w /\
  set_listeners (listeners w) w' = w.
Proof.
  intros Hh Hn Ht. unfold initMobileMenu. run_js. rewrite Hh, Hn, Ht. simpl.
  repeat split; auto. unfold set_listeners. simpl. apply DomFacts.world_eta.
Qed.

(** The toggle the script makes: a button of class [mobile-menu-toggle],
    labelled, collapsed, put in the document together with the style
    block of the menu. *)
Theorem initMobileMenu_synthesizes_toggle (h : Header) (n : Element) :
  header (page w) = Some h -> nav w = Some n -> menuToggle w = None ->
  headerContainer h = Some true ->
  let w' := after initMobileMenu w in
  result initMobileMenu w = Normal tt /\
  menuToggle w' =
    Some (mkElement ["mobile-menu-toggle"]
            [("aria-label", "Toggle navigation menu"); ("aria-expanded", "false")]) /\
  nav w' = Some n /\
  In "mobile-menu-styles" (styles w') /\
  console w' = console w.
Proof.
  intros Hh Hn Ht Hc.
  unfold initMobileMenu, createMobileMenuToggle, addMobileMenuStyles.
  run_js. rewrite Hh, Hn, Ht. simpl.
  destruct (existsb (String.eqb "mobile-menu-styles") (styles w)) eqn:E;
    simpl; rewrite Hc; simpl; repeat split; auto.
  - apply existsb_exists in E. destruct E as (x & Hx & Ex).
    apply String.eqb_eq in Ex. now subst.
  - apply in_or_app. right. now left.
Qed.

(** When the toggle cannot be put in the document (the header has no
    [.header-container], or the navigation is not a child of it) the
    failure is logged, no toggle and no listener is added, but the style
    block made on the way stays in the document. *)
Theorem initMobileMenu_failed_insertion (h : Header) (n : Element) :
  header (page w) = Some h -> nav w = Some n -> menuToggle w = None ->
  headerContainer h <> Some true ->
  let w' := after initMobileMenu w in
  result initMobileMenu w = Normal tt /\
  menuToggle w' = None /\
  listeners w' = listeners w /\
  In "mobile-menu-styles" (styles w') /\
  exists e, console w' = console w ++ [ConsoleError "Mobile menu initialization" e].
Proof.
  intros Hh Hn Ht Hc.
  unfold initMobileMenu, createMobileMenuToggle, addMobileMenuStyles.
  run_js. rewrite Hh, Hn, Ht. simpl.
  assert (S : forall b, existsb (String.eqb "mobile-menu-styles") (styles w) = b ->
                        In "mobile-menu-styles"
                           (if b then styles w else styles w ++ ["mobile-menu-styles"])).
  { intros [|] E.
    - apply existsb_exists in E. destruct E as (x & Hx & Ex).
      apply String.eqb_eq in Ex. now subst.
    - apply in_or_app. right. now left. }
  specialize (S _ eq_refl).
  destruct (existsb (String.eqb "mobile-menu-styles") (styles w));
    simpl; destruct (headerContainer h) as [[|]|]; simpl;
    try congruence; repeat split; auto; eexists; reflexivity.
Qed.

End MenuSetup.

Lemma initMobileMenu_dormant_without_navigation_witness :
  let W := set_nav None Sample.world in
  initMobileMenu W = (Normal tt, W).
Proof.
  apply initMobileMenu_dormant_without_navigation. right. reflexivity.
Defined.

Lemma initMobileMenu_keeps_markup_toggle_witness :
  let w' := after initMobileMenu Sample.closedMenuWorld in
  menuToggle w' = menuToggle Sample.closedMenuWorld /\ styles w' = [].
Proof.
  destruct (@initMobileMenu_keeps_markup_toggle Sample.closedMenuWorld
              _ _ _ eq_refl eq_refl eq_refl) as (_ & T & _ & S & _).
  split; [exact T | exact S].
Defined.

Lemma initMobileMenu_synthesizes_toggle_witness :
  menuClosed (after initMobileMenu Sample.world).
Proof.
  destruct (@initMobileMenu_synthesizes_toggle Sample.world _ _
              eq_refl eq_refl eq_refl eq_refl) as (_ & T & N & _).
  eexists. eexists. split; [exact N|]. split; [exact T|]. repeat split.
Defined.

Lemma initMobileMenu_failed_insertion_witness :
  let w' := after initMobileMenu Sample.worldWithoutContainer in
  menuToggle w' = None /\ listeners w' = [] /\ styles w' = ["mobile-menu-styles"].
Proof.
  destruct (@initMobileMenu_failed_insertion Sample.worldWithoutContainer _ _
              eq_refl eq_refl eq_refl) as (_ & T & L & _).
  - discriminate.
  - split; [exact T|]. split; [exact L | reflexivity].
Defined.

Lemma handleResize_closes_menu_from_breakpoint_witness :
  menuClosed (after handleResize (after openMobileMenu Sample.closedMenuWorld)).
Proof.
  apply (@handleResize_closes_menu_from_breakpoint
           (after openMobileMenu Sample.closedMenuWorld) _ _ eq_refl eq_refl).
  discriminate.
Defined.

Lemma handleEscapeKey_closes_only_on_escape_witness :
  menuClosed (after (handleEscapeKey (mkKeyboardEvent "Escape" 27))
                    (after openMobileMenu Sample.closedMenuWorld)).
Proof.
  apply (@handleEscapeKey_closes_only_on_escape (mkKeyboardEvent "Escape" 27)
           (after openMobileMenu Sample.closedMenuWorld) _ _ eq_refl eq_refl).
  left. reflexivity.
Defined.

Lemma handleOutsideClick_closes_only_outside_witness :
  let W := after openMobileMenu Sample.closedMenuWorld in
  menuClosed (after (handleOutsideClick (mkClickEvent false false)) W) /\
  handleOutsideClick (mkClickEvent true false) W = (Normal tt, W).
Proof.
  intro W.
  destruct (@handleOutsideClick_closes_only_outside (mkClickEvent false false) W
              _ _ eq_refl eq_refl) as (C & _).
  destruct (@handleOutsideClick_closes_only_outside (mkClickEvent true false) W
              _ _ eq_refl eq_refl) as (_ & I).
  split; [apply C; reflexivity | apply I; right; left; reflexivity].
Defined.

Lemma menu_changes_only_its_marks_witness :
  let W := Sample.closedMenuWorld in
  set_nav (nav W) (set_menuToggle (menuToggle W) (after toggleMobileMenu W)) = W.
Proof.
  intro W.
  destruct (@menu_changes_only_its_marks OpToggle W _ _
              (or_intror (or_intror eq_refl)) eq_refl eq_refl)
    as (n' & t' & _ & _ & _ & _ & _ & E).
  exact E.
Defined.

(* ================================================================== *)
(** * Smooth scrolling to a target *)
(* ================================================================== *)

Section SmoothScrollTarget.

Import Dom.

Variable w : World.
Variable link : Link.
Variable targetId : string.
Variable el : nat.
Hypothesis link_href : href link = Some targetId.
Hypothesis is_fragment : String.prefix "#" targetId = true.
Hypothesis target_exists : resolve (page w) targetId = Match el.

(** A click on a link whose fragment resolves: the default navigation is
    prevented, one scroll is requested to the number the script computes
    as the target's top plus [window.pageYOffset], minus the header's
    height (80 without a header), in this order and in double arithmetic;
    the fragment is pushed on the history when the browser can, the
    target gets the focus, the menu is closed, and the target is left
    without a [tabindex] attribute, also when it had one before the
    click. *)
Theorem handleSmoothScroll_scrolls_to_target :
  let w' := after (handleSmoothScroll link) w in
  let offset :=
    match header (page w) with
    | Some h => inject_Z (offsetHeight h)
    | None => 80%Q
    end in
  result (handleSmoothScroll link) w = Normal tt /\
  effects w' =
    effects w
    ++ [PreventDefault;
        ScrollTo (JsNumber.Sub
                    (JsNumber.Add (JsNumber.Val (targetTop (page w) el))
                                  (JsNumber.Val (pageYOffset (viewport w))))
                    (JsNumber.Val offset))]
    ++ (if hasPushState (page w) then [PushState targetId] else [])
    ++ [Focus el] /\
  nav w' = nav (after closeMobileMenu w) /\
  menuToggle w' = menuToggle (after closeMobileMenu w) /\
  getAttr "tabindex" (targets w' el) = None /\
  (forall k, k <> "tabindex" -> getAttr k (targets w' el) = getAttr k (targets w el)) /\
  classList (targets w' el) = classList (targets w el) /\
  (forall j, j <> el -> targets w' j = targets w j) /\
  console w' = console w.
Proof.
  assert (Ne : String.eqb targetId "" = false).
  { destruct targetId; [discriminate is_fragment | reflexivity]. }
  unfold handleSmoothScroll, querySelector, getScrollOffset, focusTransiently,
    updateTarget.
  rewrite link_href, Ne, is_fragment. run_js. rewrite target_exists. simpl.
  destruct (hasPushState (page w)); simpl;
    unfold closeMobileMenu; simpl;
    destruct (nav w) as [n|], (menuToggle w) as [t|]; simpl;
    rewrite !Nat.eqb_refl, <- ?app_assoc; simpl;
    (repeat split; auto;
     [ apply DomFacts.getAttribute_removeAttribute
     | intros k Hk; apply String.eqb_neq in Hk; unfold getAttr; simpl;
       rewrite getAttribute_removeAttribute_other by exact Hk;
       now apply getAttribute_setAttribute_other
     | intros j Hj; apply Nat.eqb_neq in Hj; now rewrite Hj ]).
Qed.

End SmoothScrollTarget.

Lemma handleSmoothScroll_scrolls_to_target_witness :
  let link := mkLink (Some "#services") in
  effects (after (handleSmoothScroll link) Sample.world) =
    [PreventDefault;
     ScrollTo (JsNumber.Sub (JsNumber.Add (JsNumber.Val 500) (JsNumber.Val 0))
                            (JsNumber.Val (inject_Z 64)));
     PushState "#services"; Focus 0].
Proof.
  intro link.
  destruct (@handleSmoothScroll_scrolls_to_target Sample.world link "#services" 0
              eq_refl eq_refl eq_refl) as (_ & E & _).
  exact E.
Defined.

(* ================================================================== *)
(** * Lazy images: one image, and all of them *)
(* ================================================================== *)

Section LazyLoading.

Import Dom.

Local Abbreviation LOADED := CLASSES.LAZY_LOADED.

(** What [loadImage] does to the image it is given. *)
Let loadStep (image : Image) : Image :=
  if contains LOADED (imageClassList image) then image
  else match src image with
       | None => image
       | Some s =>
           if String.eqb s "" then image
           else
             let listening :=
               addImageListener (OnErrorLog s) (addImageListener OnLoadMark image) in
             if complete image then markImage LOADED listening else listening
       end.

Lemma updateNth_fix (A : Type) (i : nat) (g : A -> A) (l : list A) (x : A) :
  nth_error l i = Some x -> g x = x -> updateNth i g l = l.
Proof.
  revert i. induction l as [|y l IH]; intros [|i] H E; simpl in *; try discriminate.
  - injection H as ->. now rewrite E.
  - now rewrite (IH i H E).
Qed.

Lemma updateNth_ext_at (A : Type) (i : nat) (g h : A -> A) (l : list A) (x : A) :
  nth_error l i = Some x -> g x = h x -> updateNth i g l = updateNth i h l.
Proof.
  revert i. induction l as [|y l IH]; intros [|i] H E; simpl in *; try discriminate.
  - injection H as ->. now rewrite E.
  - now rewrite (IH i H E).
Qed.

Lemma set_images_same (w : World) : set_images (images w) w = w.
Proof. now destruct w. Qed.

Lemma loadImage_run (w : World) (i : nat) (image : Image) :
  nth_error (images w) i = Some image ->
  loadImage i w = (Normal tt, set_images (updateNth i loadStep (images w)) w).
Proof.
  intro H. unfold loadImage, tryCatch. rewrite H.
  assert (Same : loadStep image = image ->
                 (Normal tt, w) = (Normal tt, set_images (updateNth i loadStep (images w)) w)).
  { intro E. now rewrite (updateNth_fix i loadStep _ H E), set_images_same. }
  destruct (contains LOADED (imageClassList image)) eqn:C;
    [apply Same; unfold loadStep; now rewrite C|].
  destruct (src image) as [s|] eqn:Hs;
    [|apply Same; unfold loadStep; now rewrite C, Hs].
  destruct (String.eqb s "") eqn:Hne;
    [apply Same; unfold loadStep; now rewrite C, Hs, Hne|].
  unfold updateImage. run_js.
  destruct (complete image) eqn:Cm; simpl; rewrite !updateNth_twice;
    unfold set_images; simpl; f_equal; f_equal;
    apply (updateNth_ext_at i _ _ _ H); unfold loadStep;
    rewrite C, Hs, Hne, Cm; reflexivity.
Qed.

Lemma loadStep_keeps (image : Image) :
  src (loadStep image) = src image /\
  complete (loadStep image) = complete image /\
  (forall c, contains c (imageClassList image) = true ->
             contains c (imageClassList (loadStep image)) = true) /\
  (forall c, c <> LOADED ->
             contains c (imageClassList (loadStep image))
             = contains c (imageClassList image)).
Proof.
  unfold loadStep.
  destruct (contains LOADED (imageClassList image)) eqn:C; [auto|].
  destruct (src image) as [s|] eqn:Hs; [|auto].
  destruct (String.eqb s ""); [auto|].
  destruct (complete image) eqn:Cm; simpl; rewrite ?Hs, ?Cm; [|auto].
  split; [reflexivity|]. split; [reflexivity|]. split.
  - intros c H. unfold add. rewrite C.
    rewrite DomFacts.contains_app, H. reflexivity.
  - intros c H. apply String.eqb_neq in H. now apply contains_add_other.
Qed.

(** [loadImage] skips an image that already carries the loaded class:
    nothing changes, no listener is added a second time. *)
Theorem loadImage_skips_loaded_image (w : World) (i : nat) (image : Image) :
  nth_error (images w) i = Some image ->
  contains LOADED (imageClassList image) = true ->
  loadImage i w = (Normal tt, w).
Proof.
  intros H C. unfold loadImage, tryCatch. now rewrite H, C.
Qed.

(** [loadImage] changes the one image it is given, and of it only the
    loaded class and the listeners: its [src] and [complete] and its
    other classes, the other images and the rest of the document stay. *)
Theorem loadImage_changes_one_image (w : World) (i : nat) (image : Image) :
  nth_error (images w) i = Some image ->
  let w' := after (loadImage i) w in
  result (loadImage i) w = Normal tt /\
  (exists image',
     nth_error (images w') i = Some image' /\
     src image' = src image /\ complete image' = complete image /\
     (forall c, c <> LOADED ->
        contains c (imageClassList image') = contains c (imageClassList image)) /\
     (forall c, contains c (imageClassList image) = true ->
        contains c (imageClassList image') = true)) /\
  (forall j, j <> i -> nth_error (images w') j = nth_error (images w) j) /\
  List.length (images w') = List.length (images w) /\
  set_images (images w) w' = w.
Proof.
  intros H w'. unfold w', after, result. rewrite (loadImage_run w i H). simpl.
  destruct (loadStep_keeps image) as (K1 & K2 & K3 & K4).
  split; [reflexivity|]. split; [|split; [|split]].
  - exists (loadStep image). rewrite nth_error_updateNth_eq, H. simpl. auto.
  - intros j Hj. apply nth_error_updateNth_neq. congruence.
  - apply updateNth_length.
  - unfold set_images. simpl. apply DomFacts.world_eta.
Qed.

Lemma forEach_loadImage (l : list Image) :
  forall (w : World) (prefix : list Image),
    images w = prefix ++ l ->
    forEach loadImage (seq (List.length prefix) (List.length l)) w
    = (Normal tt, set_images (prefix ++ map loadStep l) w).
Proof.
  induction l as [|image l IH]; intros w prefix H; simpl.
  - unfold ret. rewrite <- H. now rewrite set_images_same.
  - assert (N : nth_error (images w) (List.length prefix) = Some image).
    { rewrite H, nth_error_app2, Nat.sub_diag by lia. reflexivity. }
    erewrite bind_run by apply (loadImage_run w _ N).
    assert (U : updateNth (List.length prefix) loadStep (images w)
                = (prefix ++ [loadStep image]) ++ l).
    { rewrite H. clear. induction prefix as [|x prefix IHp]; simpl; [reflexivity|].
      now rewrite IHp. }
    replace (S (List.length prefix)) with (List.length (prefix ++ [loadStep image]))
      by (rewrite length_app; simpl; lia).
    rewrite (IH (set_images (updateNth (List.length prefix) loadStep (images w)) w)
                (prefix ++ [loadStep image]) U).
    simpl. rewrite <- app_assoc. reflexivity.
Qed.

(** [initLazyLoading]: without images nothing happens; with the observer
    every image is put under observation and none is touched; without the
    observer every image is loaded at once, so each complete image with a
    non-empty [src] carries the loaded class afterwards, and no image
    loses a class or changes its [src]. *)
Theorem initLazyLoading_observes_or_loads_all (w : World) :
  let w' := after initLazyLoading w in
  result initLazyLoading w = Normal tt /\
  (images w = [] -> initLazyLoading w = (Normal tt, w)) /\
  (hasIntersectionObserver (page w) = true ->
   images w' = images w /\
   (images w <> [] -> observed w' = observed w ++ seq 0 (List.length (images w)))) /\
  (hasIntersectionObserver (page w) = false ->
   observed w' = observed w /\
   List.length (images w') = List.length (images w) /\
   forall i image,
     nth_error (images w) i = Some image ->
     exists image',
       nth_error (images w') i = Some image' /\
       src image' = src image /\
       (forall c, contains c (imageClassList image) = true ->
                  contains c (imageClassList image') = true) /\
       (forall s, src image = Some s -> s <> "" -> complete image = true ->
                  contains LOADED (imageClassList image') = true)).
Proof.
  intro w'. unfold w', after, result, initLazyLoading, tryCatch.
  destruct (images w) as [|image0 rest] eqn:I.
  { simpl. rewrite ?I. split; [reflexivity|]. split; [intros _; reflexivity|]. split.
    - intros _. split; [reflexivity|]. intro N. congruence.
    - intros _. split; [reflexivity|]. split; [reflexivity|].
      intros i image H. now destruct i. }
  destruct (hasIntersectionObserver (page w)) eqn:O.
  - assert (F : forall l w0,
               forEach (fun i => modify (fun w1 => set_observed (observed w1 ++ [i]) w1)) l w0
               = (Normal tt, set_observed (observed w0 ++ l) w0)).
    { induction l as [|x l IH]; intro w0; simpl.
      - unfold ret. rewrite app_nil_r. now destruct w0.
      - unfold bind, modify. rewrite IH. simpl. now rewrite <- app_assoc. }
    rewrite F. simpl. rewrite ?I. split; [reflexivity|]. split; [intro N; congruence|].
    split; [|discriminate]. intros _. split; [reflexivity|]. intros _.
    reflexivity.
  - assert (W : match forEach loadImage (seq 0 (List.length (image0 :: rest))) w with
                | (Normal a, w0) => (Normal a, w0)
                | (Throw e, w0) => logError "Lazy loading initialization" e w0
                end = (Normal tt, set_images (map loadStep (image0 :: rest)) w)).
    { pose proof (@forEach_loadImage (image0 :: rest) w [] I) as E.
      change (List.length (@nil Image)) with 0 in E. now rewrite E. }
    rewrite W. cbn [fst snd images set_images observed]. rewrite ?I.
    split; [reflexivity|]. split; [intro N; congruence|]. split; [discriminate|].
    intros _. split; [reflexivity|]. split; [now rewrite length_map|].
    intros i image H.
    exists (loadStep image).
    destruct (loadStep_keeps image) as (K1 & K2 & K3 & K4).
    split; [|split; [exact K1|split; [exact K3|]]].
    + now rewrite nth_error_map, H.
    + intros s Hs Hne Hc. unfold loadStep.
      destruct (contains LOADED (imageClassList image)) eqn:C; [exact C|].
      rewrite Hs. apply String.eqb_neq in Hne. rewrite Hne, Hc. simpl.
      apply DomFacts.contains_add.
Qed.

End LazyLoading.

Lemma loadImage_skips_loaded_image_witness :
  let W := set_images [mkImage ["hero"; "lazy-loaded"] (Some "hero.jpg") true []]
                      Sample.world in
  loadImage 0 W = (Normal tt, W).
Proof.
  intro W.
  apply (@loadImage_skips_loaded_image W 0
           (mkImage ["hero"; "lazy-loaded"] (Some "hero.jpg") true []) eq_refl eq_refl).
Defined.

Lemma loadImage_changes_one_image_witness :
  let W := set_images [Sample.srcsetImage; Sample.loadedImage] Sample.world in
  nth_error (images (after (loadImage 1) W)) 0 = Some Sample.srcsetImage.
Proof.
  intro W.
  destruct (@loadImage_changes_one_image W 1 Sample.loadedImage eq_refl)
    as (_ & _ & F & _).
  apply (F 0). discriminate.
Defined.

Lemma initLazyLoading_observes_or_loads_all_witness :
  let W := set_images [Sample.srcsetImage; Sample.loadedImage] Sample.world in
  images (after initLazyLoading W) = images W /\
  observed (after initLazyLoading W) = [0; 1].
Proof.
  intro W.
  destruct (@initLazyLoading_observes_or_loads_all W) as (_ & _ & O & _).
  destruct (O eq_refl) as (I & S). split; [exact I|]. apply S. discriminate.
Defined.

Section ImageEvents.

Import Dom.

Local Abbreviation LOADED := CLASSES.LAZY_LOADED.

Lemma loadImage_keeps_observed (i : nat) (w : World) :
  observed (after (loadImage i) w) = observed w.
Proof.
  unfold after, loadImage, tryCatch.
  destruct (nth_error (images w) i) as [image|]; [|reflexivity].
  destruct (contains LOADED (imageClassList image)); [reflexivity|].
  destruct (src image) as [s|]; [|reflexivity].
  destruct (String.eqb s ""); [reflexivity|].
  unfold updateImage. run_js. now destruct (complete image).
Qed.

Lemma loadImage_normal (i : nat) (w : World) :
  loadImage i w = (Normal tt, after (loadImage i) w).
Proof. apply neverThrows_run. apply tryCatch_neverThrows. Qed.

Lemma filter_filter (A : Type) (p q : A -> bool) (l : list A) :
  filter p (filter q l) = filter (fun x => q x && p x) l.
Proof.
  induction l as [|x l IH]; simpl; [reflexivity|].
  destruct (q x); simpl; [|exact IH]. destruct (p x); now rewrite IH.
Qed.

(** [handleImageIntersection] stops observing exactly the targets of the
    entries that intersect; the targets of the other entries and the
    images no entry names stay under observation. *)
Theorem handleImageIntersection_unobserves_intersecting (entries : list IntersectionEntry) :
  forall w,
    result (handleImageIntersection entries) w = Normal tt /\
    observed (after (handleImageIntersection entries) w) =
      filter (fun j =>
                negb (existsb (fun entry =>
                                 isIntersecting entry && Nat.eqb j (entryTarget entry))
                              entries))
             (observed w).
Proof.
  unfold handleImageIntersection, result, after.
  induction entries as [|entry entries IH]; intro w.
  - cbn. split; [reflexivity|].
    induction (observed w) as [|x l IHl]; simpl; [reflexivity | now rewrite <- IHl].
  - cbn [forEach]. destruct (isIntersecting entry) eqn:E.
    + erewrite bind_run;
        [|erewrite bind_run by apply loadImage_normal; reflexivity].
      destruct (IH (set_observed
                      (filter (fun j => negb (Nat.eqb j (entryTarget entry)))
                              (observed (after (loadImage (entryTarget entry)) w)))
                      (after (loadImage (entryTarget entry)) w))) as (IH1 & IH2).
      split; [exact IH1|]. rewrite IH2. cbn [observed set_observed].
      rewrite loadImage_keeps_observed, filter_filter.
      apply filter_ext. intro j. cbn [existsb]. rewrite E. cbn [andb].
      now rewrite negb_orb.
    + erewrite bind_run by reflexivity.
      destruct (IH w) as (IH1 & IH2). split; [exact IH1|]. rewrite IH2.
      apply filter_ext. intro j. cbn [existsb]. rewrite E. reflexivity.
Qed.

Lemma fireImageLoad_marks (i : nat) (ls : list ImageListener) :
  forall (w : World) (image : Image),
    nth_error (images w) i = Some image ->
    contains LOADED (imageClassList image) = true \/ In OnLoadMark ls ->
    exists image',
      nth_error
        (images (snd (forEach
           (fun l => match l with
                     | OnLoadMark => updateImage i (markImage LOADED)
                     | OnErrorLog _ => ret tt
                     end) ls w))) i = Some image' /\
      contains LOADED (imageClassList image') = true.
Proof.
  induction ls as [|l ls IH]; intros w image N H; simpl.
  - destruct H as [H | []]. exists image. auto.
  - destruct l as [|s]; unfold bind, updateImage, modify, ret; simpl.
    + apply (IH _ (markImage LOADED image)).
      * simpl. now rewrite nth_error_updateNth_eq, N.
      * left. apply DomFacts.contains_add.
    + apply (IH _ image N). destruct H as [H | [H | H]]; auto. discriminate H.
Qed.

(** An image with a non-empty [src] that [loadImage] has seen is marked
    by its [load] event, also when it was not complete at the time. *)
Theorem load_event_marks_image (w : World) (i : nat) (image : Image) (s : string) :
  nth_error (images w) i = Some image ->
  src image = Some s -> s <> "" ->
  exists image',
    nth_error (images (after (fireImageLoad i) (after (loadImage i) w))) i = Some image' /\
    contains LOADED (imageClassList image') = true.
Proof.
  intros N Hs Hne.
  assert (L : exists im,
             nth_error (images (after (loadImage i) w)) i = Some im /\
             (contains LOADED (imageClassList im) = true \/
              In OnLoadMark (imageListeners im))).
  { unfold after, loadImage, tryCatch. rewrite N.
    destruct (contains LOADED (imageClassList image)) eqn:C.
    - exists image. simpl. auto.
    - rewrite Hs. apply String.eqb_neq in Hne. rewrite Hne.
      unfold updateImage. run_js.
      destruct (complete image); simpl;
        rewrite !nth_error_updateNth_eq, N; simpl;
        (eexists; split; [reflexivity|]); right; simpl;
        apply in_or_app; left; apply in_or_app; right; now left. }
  destruct L as (im & Ni & L).
  unfold after at 1. unfold fireImageLoad. rewrite Ni.
  now apply (@fireImageLoad_marks i (imageListeners im) _ im).
Qed.

End ImageEvents.

Lemma load_event_marks_image_witness :
  let W := set_images [mkImage [] (Some "hero.jpg") false []] Sample.world in
  exists image',
    nth_error (images (after (fireImageLoad 0) (after (loadImage 0) W))) 0 = Some image' /\
    Dom.contains CLASSES.LAZY_LOADED (imageClassList image') = true.
Proof.
  intro W.
  apply (@load_event_marks_image W 0 (mkImage [] (Some "hero.jpg") false []) "hero.jpg"
           eq_refl eq_refl).
  discriminate.
Defined.

(* ================================================================== *)
(** * The scroll-to-top button from set-up on *)
(* ================================================================== *)

Section ScrollButton.

Import Dom.

Local Abbreviation VISIBLE := CLASSES.SCROLL_TO_TOP_VISIBLE.

Variable w : World.

(** [initScrollToTop] checks the offset once itself: right after it the
    button is in the document and visible exactly when the page is
    already scrolled beyond 300, that is when [window.pageYOffset]
    exceeds 300, or reads 0 while the root element's [scrollTop] exceeds
    300. A button of the markup keeps its attributes and its other
    classes and no style block is added; a button the script makes has
    the class [scroll-to-top] and the label ["Scroll to top"], and comes
    with its style block. *)
Theorem initScrollToTop_checks_visibility_at_once :
  let w' := after initScrollToTop w in
  let v := viewport w in
  exists button,
    scrollButton w' = Some button /\
    (hasClass VISIBLE button = true <->
     (300 < pageYOffset v)%Q \/ ((pageYOffset v == 0)%Q /\ (300 < scrollTop v)%Q)) /\
    (scrollButton w = None ->
     contains "scroll-to-top" (classList button) = true /\
     getAttr "aria-label" button = Some "Scroll to top" /\
     In "scroll-to-top-styles" (styles w')) /\
    (forall b, scrollButton w = Some b ->
       attributes button = attributes b /\
       (forall c, c <> VISIBLE ->
          contains c (classList button) = contains c (classList b)) /\
       styles w' = styles w).
Proof.
  intros w' v.
  assert (P : exists button,
             scrollButton w' = Some button /\
             (hasClass VISIBLE button = true <-> Qgtb (scrollPosition v) 300 = true) /\
             (scrollButton w = None ->
              contains "scroll-to-top" (classList button) = true /\
              getAttr "aria-label" button = Some "Scroll to top" /\
              In "scroll-to-top-styles" (styles w')) /\
             (forall b, scrollButton w = Some b ->
                attributes button = attributes b /\
                (forall c, c <> VISIBLE ->
                   contains c (classList button) = contains c (classList b)) /\
                styles w' = styles w)).
  { unfold w', v.
    unfold initScrollToTop, createScrollToTopButton, addScrollToTopStyles, handleScroll.
    unfold after, tryCatch, bind, ret, modify, addEventListener.
    change (inject_Z CONFIG.SCROLL_TO_TOP_THRESHOLD) with 300%Q.
    assert (V : forall e : Element,
               (hasClass VISIBLE (addClass VISIBLE e) = true) /\
               (hasClass VISIBLE (removeClass VISIBLE e) = false)).
    { intro e. split; [apply DomFacts.contains_add | apply DomFacts.contains_remove]. }
    assert (S : forall b, existsb (String.eqb "scroll-to-top-styles") (styles w) = b ->
                          In "scroll-to-top-styles"
                             (if b then styles w else styles w ++ ["scroll-to-top-styles"])).
    { intros [|] E.
      - apply existsb_exists in E. destruct E as (x & Hx & Ex).
        apply String.eqb_eq in Ex. now subst.
      - apply in_or_app. right. now left. }
    specialize (S _ eq_refl).
    destruct (scrollButton w) as [b|] eqn:B.
    - simpl. rewrite B.
      destruct (Qgtb (scrollPosition (viewport w)) 300) eqn:Q; simpl;
        eexists; (split; [reflexivity|]); (split; [|split; [discriminate|]]).
      + destruct (V b) as [-> _]. tauto.
      + intros b0 E0. injection E0 as <-. split; [reflexivity|]. split; [|reflexivity].
        intros c Hc. apply String.eqb_neq in Hc. now apply contains_add_other.
      + destruct (V b) as [_ ->]. tauto.
      + intros b0 E0. injection E0 as <-. split; [reflexivity|]. split; [|reflexivity].
        intros c Hc. apply String.eqb_neq in Hc. now apply contains_remove_other.
    - destruct (existsb (String.eqb "scroll-to-top-styles") (styles w)); simpl;
        destruct (Qgtb (scrollPosition (viewport w)) 300) eqn:Q; simpl;
        eexists; (split; [reflexivity|]);
        (split; [|split; [intros _; split; [reflexivity|split; [reflexivity|exact S]]
                         |intros b0 E0; discriminate E0]]).
      + rewrite (proj1 (V _)). tauto.
      + rewrite (proj2 (V _)). tauto.
      + rewrite (proj1 (V _)). tauto.
      + rewrite (proj2 (V _)). tauto. }
  destruct P as (button & B & Vis & Made & Kept).
  exists button. split; [exact B|]. split; [|split; [exact Made | exact Kept]].
  rewrite Vis. apply scrollPosition_above.
Qed.

(** [handleScroll] settles: run again without a scroll in between it
    changes nothing more; and all it ever changes is the class [visible]
    of the button. *)
Theorem handleScroll_settles_and_changes_only_visible :
  let w' := after handleScroll w in
  handleScroll w' = (Normal tt, w') /\
  set_scrollButton (scrollButton w) w' = w /\
  forall b, scrollButton w = Some b ->
    exists b',
      scrollButton w' = Some b' /\ attributes b' = attributes b /\
      forall c, c <> VISIBLE -> contains c (classList b') = contains c (classList b).
Proof.
  unfold handleScroll, after, tryCatch.
  destruct (scrollButton w) as [b|] eqn:B.
  - destruct (Qgtb (scrollPosition (viewport w)) (inject_Z CONFIG.SCROLL_TO_TOP_THRESHOLD))
      eqn:Q; simpl; rewrite Q; unfold addClass, removeClass, set_scrollButton; simpl;
      rewrite ?add_idempotent, ?remove_idempotent, <- B;
      (split; [reflexivity|]); (split; [apply DomFacts.world_eta|]);
      intros b0 E0; rewrite B in E0; injection E0 as <-;
      eexists; (split; [reflexivity|]); (split; [reflexivity|]);
      intros c Hc; apply String.eqb_neq in Hc; simpl.
    + now apply contains_add_other.
    + now apply contains_remove_other.
  - simpl. rewrite B. split; [reflexivity|]. split.
    + unfold set_scrollButton. rewrite <- B. apply DomFacts.world_eta.
    + intros b E. discriminate E.
Qed.

End ScrollButton.

Lemma initScrollToTop_checks_visibility_at_once_witness :
  let scrolled :=
    mkWorld Sample.page (mkViewport 500 500 1024) (nav Sample.world) None []
            (targets Sample.world) [] [] None None [] [] [] [] [] 0 in
  exists button,
    scrollButton (after initScrollToTop scrolled) = Some button /\
    Dom.hasClass "visible" button = true /\
    Dom.contains "scroll-to-top" (Dom.classList button) = true.
Proof.
  intro scrolled.
  destruct (@initScrollToTop_checks_visibility_at_once scrolled)
    as (button & B & V & M & _).
  exists button. split; [exact B|]. split.
  - apply V. left. reflexivity.
  - apply (M eq_refl).
Defined.

(* ================================================================== *)
(** * Error marks of a field *)
(* ================================================================== *)

Section ErrorMarks.

Import Dom.

Lemma removeAttribute_absent (k : string) (attrs : list (string * string)) :
  getAttribute k attrs = None -> removeAttribute k attrs = attrs.
Proof.
  unfold removeAttribute. induction attrs as [|[k0 v0] rest IH]; simpl; [reflexivity|].
  destruct (String.eqb k k0); [discriminate|]. intro H. simpl. now rewrite IH.
Qed.

Lemma removeAttribute_setAttribute (k v : string) (attrs : list (string * string)) :
  removeAttribute k (setAttribute k v attrs) = removeAttribute k attrs.
Proof.
  unfold removeAttribute. induction attrs as [|[k0 v0] rest IH]; simpl.
  - now rewrite String.eqb_refl.
  - destruct (String.eqb k k0) eqn:E; simpl.
    + now rewrite String.eqb_refl.
    + now rewrite E, IH.
Qed.


Lemma cleared_flagged (e : Element) : cleared (flagged e) = cleared e.
Proof.
  unfold cleared, flagged, removeAttr, removeClass, setAttr, addClass. simpl.
  now rewrite remove_add_same, removeAttribute_setAttribute.
Qed.


Lemma cleared_clean (e : Element) :
  hasClass CLASSES.FORM_ERROR e = false -> getAttr "aria-invalid" e = None ->
  cleared e = e.
Proof.
  intros C A. unfold cleared, removeAttr, removeClass. simpl.
  rewrite (DomFacts.remove_absent _ _ C), (removeAttribute_absent _ _ A).
  now destruct e.
Qed.

Variable w : World.
Variable f : Form.
Variable i : nat.
Variable fd : Field.
Variable p : nat.
Hypothesis form_present : form w = Some f.
Hypothesis field_present : nth_error (fields f) i = Some fd.
Hypothesis parent_present : parentElement fd = Some p.


(** Showing an error on a field that has none and clearing it again
    gives back the field and its parent as they were: the [input]
    listener undoes what the [blur] listener showed. *)
Theorem show_then_clear_restores_field (message : string) :
  hasClass CLASSES.FORM_ERROR (fieldElement fd) = false ->
  getAttr "aria-invalid" (fieldElement fd) = None ->
  fieldErrors f p = [] ->
  let w' := after (clearFieldError i) (after (showFieldError i message) w) in
  errorShown (after (showFieldError i message) w) i p message /\
  (forall j, fieldOf w' j = fieldOf w j) /\
  (forall q, errorsOf w' q = errorsOf w q).
Proof.
  intros C A E.
  pose proof (@showFieldError_run w f i fd p form_present field_present parent_present
                message) as S.
  unfold after. rewrite S. simpl. split.
  - exists (mapFieldElement flagged fd).
    unfold fieldOf, errorsOf. simpl.
    rewrite nth_error_updateNth_eq, field_present, Nat.eqb_refl, E. simpl.
    eexists. exists []. repeat split.
    + apply DomFacts.contains_add.
    + apply DomFacts.getAttribute_setAttribute.
  - erewrite clearFieldError_run;
      [| reflexivity
       | simpl; rewrite nth_error_updateNth_eq, field_present; reflexivity
       | exact parent_present].
    unfold fieldOf, errorsOf. simpl. rewrite form_present. split.
    + intro j. rewrite updateNth_twice.
      rewrite (updateNth_fix i _ _ field_present); [reflexivity|].
      unfold mapFieldElement. simpl.
      rewrite cleared_flagged, (cleared_clean _ C A). now destruct fd.
    + intro q. destruct (Nat.eqb q p) eqn:Q; [|reflexivity].
      apply Nat.eqb_eq in Q. subst q. now rewrite E.
Qed.

End ErrorMarks.


Lemma show_then_clear_restores_field_witness :
  let fd := Sample.input "email" true "not-an-email" (Some 0) in
  let W := Sample.withFields [fd] in
  let W' := after (clearFieldError 0) (after (showFieldError 0 "Invalid") W) in
  errorShown (after (showFieldError 0 "Invalid") W) 0 0 "Invalid" /\
  fieldOf W' 0 = Some fd /\
  errorsOf W' 0 = [].
Proof.
  intros fd W W'.
  destruct (@show_then_clear_restores_field W (mkForm [] [fd] (fun _ => []) []) 0 fd 0
              eq_refl eq_refl eq_refl "Invalid" eq_refl eq_refl eq_refl)
    as (S & F & E).
  split; [exact S|]. split; [apply (F 0) | apply (E 0)].
Defined.

(* ================================================================== *)
(** * Validation settles, and marks every field *)
(* ================================================================== *)

Section ValidationSettles.

Import Dom.





Variable w : World.
Variable f : Form.
Variable i : nat.
Variable fd : Field.
Variable p : nat.
Hypothesis form_present : form w = Some f.
Hypothesis field_present : nth_error (fields f) i = Some fd.
Hypothesis parent_present : parentElement fd = Some p.
Hypothesis one_error : (List.length (fieldErrors f p) <= 1)%nat.


End ValidationSettles.

Section WholeFormMarks.

Import Dom.




Variable w : World.
Variable f : Form.
Hypothesis form_present : form w = Some f.
Hypothesis parents_present : forall fd, In fd (fields f) -> parentElement fd <> None.




End WholeFormMarks.




(* ================================================================== *)
(** * Submitting twice *)
(* ================================================================== *)

Section Resubmission.

Import Dom.



Variable w : World.
Variable f : Form.
Hypothesis form_present : form w = Some f.
Hypothesis all_pass : forall fd, In fd (fields f) -> passes fd.
Hypothesis no_banner : banners f = [].


End Resubmission.


(* ================================================================== *)
(** * Keyboard helpers and start-up *)
(* ================================================================== *)

Section Keyboard.

Import Dom.

Variable w : World.

(** The skip link always cancels the jump of the browser; when the page
    has a main region it gets the focus and is left without a [tabindex]
    attribute, and nothing else of the document changes. *)
Theorem handleSkipLink_focuses_main :
  let w' := after handleSkipLink w in
  result handleSkipLink w = Normal tt /\
  match mainElement (page w) with
  | Some el =>
      effects w' = effects w ++ [PreventDefault; Focus el] /\
      getAttr "tabindex" (targets w' el) = None /\
      (forall k, k <> "tabindex" -> getAttr k (targets w' el) = getAttr k (targets w el)) /\
      (forall j, j <> el -> targets w' j = targets w j) /\
      set_targets (targets w) (set_effects (effects w) w') = w
  | None => w' = set_effects (effects w ++ [PreventDefault]) w
  end.
Proof.
  unfold handleSkipLink, focusTransiently, updateTarget. run_js.
  destruct (mainElement (page w)) as [el|]; simpl; [|auto].
  rewrite !Nat.eqb_refl, <- app_assoc. simpl.
  split; [reflexivity|]. split; [reflexivity|]. split; [|split; [|split]].
  - apply DomFacts.getAttribute_removeAttribute.
  - intros k Hk. apply String.eqb_neq in Hk. unfold getAttr. simpl.
    rewrite getAttribute_removeAttribute_other by exact Hk.
    now apply getAttribute_setAttribute_other.
  - intros j Hj. apply Nat.eqb_neq in Hj. now rewrite Hj.
  - unfold set_targets, set_effects. simpl. apply DomFacts.world_eta.
Qed.

(** What the initializer does to one card. *)
Let focusable (card : Element) : Element :=
  if hasAttribute "tabindex" (attributes card) then card
  else setAttr "tabindex" "0" card.

Lemma initKeyboardAccessibility_run (w0 : World) :
  result initKeyboardAccessibility w0 = Normal tt /\
  cards (after initKeyboardAccessibility w0) = map focusable (cards w0).
Proof.
  unfold initKeyboardAccessibility. run_js.
  destruct (skipLink (page w0)); simpl; auto.
Qed.

Lemma focusable_spec (card : Element) :
  hasAttribute "tabindex" (attributes (focusable card)) = true /\
  (forall v, getAttr "tabindex" card = Some v -> focusable card = card) /\
  (getAttr "tabindex" card = None -> getAttr "tabindex" (focusable card) = Some "0") /\
  classList (focusable card) = classList card /\
  (forall k, k <> "tabindex" -> getAttr k (focusable card) = getAttr k card).
Proof.
  unfold focusable, hasAttribute, getAttr.
  destruct (getAttribute "tabindex" (attributes card)) eqn:E; simpl.
  - rewrite E. repeat split; auto. discriminate.
  - rewrite DomFacts.getAttribute_setAttribute.
    split; [reflexivity|]. split; [discriminate|]. split; [reflexivity|].
    split; [reflexivity|].
    intros k Hk. apply String.eqb_neq in Hk. now apply getAttribute_setAttribute_other.
Qed.

(** After [initKeyboardAccessibility] every card, that is every element
    the selector [.service-card, .contact-item] matches, can be reached
    with the keyboard: a card that had a [tabindex] keeps it and is not
    changed, a card without one gets [tabindex="0"] and keeps its classes
    and its other attributes. Running the initializer again changes no
    card. *)
Theorem initKeyboardAccessibility_makes_cards_focusable :
  let w' := after initKeyboardAccessibility w in
  result initKeyboardAccessibility w = Normal tt /\
  List.length (cards w') = List.length (cards w) /\
  (forall i card,
     nth_error (cards w) i = Some card ->
     exists card',
       nth_error (cards w') i = Some card' /\
       hasAttribute "tabindex" (attributes card') = true /\
       (forall v, getAttr "tabindex" card = Some v -> card' = card) /\
       (getAttr "tabindex" card = None -> getAttr "tabindex" card' = Some "0") /\
       classList card' = classList card /\
       (forall k, k <> "tabindex" -> getAttr k card' = getAttr k card)) /\
  cards (after initKeyboardAccessibility w') = cards w'.
Proof.
  intro w'. unfold w'.
  destruct (initKeyboardAccessibility_run w) as (R & C).
  destruct (initKeyboardAccessibility_run (after initKeyboardAccessibility w)) as (_ & C2).
  rewrite C2, C. split; [exact R|]. split; [apply length_map|]. split.
  - intros i card H. exists (focusable card).
    rewrite nth_error_map, H. split; [reflexivity|]. apply focusable_spec.
  - rewrite map_map. apply map_ext. intro card.
    destruct (focusable_spec card) as (T & _).
    unfold focusable at 1. now rewrite T.
Qed.

(** [init] on a document that is still loading only registers
    [initializeFeatures] for [DOMContentLoaded] and touches nothing; on a
    loaded document it is [initializeFeatures]. *)
Theorem init_waits_for_the_document :
  (readyStateLoading (page w) = true ->
   result init w = Normal tt /\
   In (mkListener TDocument "DOMContentLoaded" HInitializeFeatures)
      (listeners (after init w)) /\
   set_listeners (listeners w) (after init w) = w) /\
  (readyStateLoading (page w) = false -> init w = initializeFeatures w).
Proof.
  unfold init. split; intro H.
  - run_js. rewrite H. simpl. split; [reflexivity|]. split.
    + apply in_or_app. right. now left.
    + unfold set_listeners. simpl. apply DomFacts.world_eta.
  - unfold tryCatch, bind, gets. rewrite H.
    assert (R : initializeFeatures w = (Normal tt, after initializeFeatures w))
      by (apply neverThrows_run; apply tryCatch_neverThrows).
    now rewrite R.
Qed.

End Keyboard.

(* ================================================================== *)
(** * Style blocks are injected once *)
(* ================================================================== *)

Section StyleBlocks.

Lemma keeps_ret (A B : Type) (part : World -> A) (b : B) : keeps part (ret b).
Proof. intro w. reflexivity. Qed.

Lemma keeps_bind (A B C : Type) (part : World -> A) (m : M B) (k : B -> M C) :
  keeps part m -> (forall b, keeps part (k b)) -> keeps part (bind m k).
Proof.
  intros Hm Hk w. unfold bind. specialize (Hm w).
  destruct (m w) as [[b|e] w1]; simpl in *; [|exact Hm].
  rewrite (Hk b w1). exact Hm.
Qed.

Lemma keeps_forEach (A B : Type) (part : World -> A) (g : B -> M unit) (l : list B) :
  (forall x, keeps part (g x)) -> keeps part (forEach g l).
Proof.
  intro H. induction l as [|x l IH]; simpl.
  - apply keeps_ret.
  - apply keeps_bind; auto.
Qed.

Lemma keeps_tryCatch (A : Type) (part : World -> A) (body : M unit) (context : string) :
  (forall v w, part (set_console v w) = part w) ->
  keeps part body -> keeps part (tryCatch body (logError context)).
Proof.
  intros Hc Hb w. unfold tryCatch. specialize (Hb w).
  destruct (body w) as [[a|e] w1]; simpl in *; [exact Hb|].
  rewrite Hc. exact Hb.
Qed.

Lemma keeps_addEventListener (t : Target) (ev : string) (h : Handler) :
  keeps styles (addEventListener t ev h).
Proof. intro w. reflexivity. Qed.

Lemma loadImage_keeps_styles (i : nat) : keeps styles (loadImage i).
Proof.
  intro w. unfold loadImage, tryCatch.
  destruct (nth_error (images w) i) as [image|]; [|reflexivity].
  destruct (Dom.contains CLASSES.LAZY_LOADED (imageClassList image)); [reflexivity|].
  destruct (src image) as [s|]; [|reflexivity].
  destruct (String.eqb s ""); [reflexivity|].
  unfold updateImage. run_js. now destruct (complete image).
Qed.

(** One step of the style list: unchanged, or one block more that was
    not there. *)
Let stylesStep (w w' : World) : Prop :=
  styles w' = styles w \/
  exists id,
    (id = "mobile-menu-styles" \/ id = "scroll-to-top-styles") /\
    ~ In id (styles w) /\ styles w' = styles w ++ [id].

Lemma not_in_styles (id : string) (w : World) :
  existsb (String.eqb id) (styles w) = false -> ~ In id (styles w).
Proof.
  intros E H.
  assert (T : existsb (String.eqb id) (styles w) = true).
  { apply existsb_exists. exists id. split; [exact H | apply String.eqb_refl]. }
  congruence.
Qed.

Lemma initMobileMenu_stylesStep (w : World) : stylesStep w (after initMobileMenu w).
Proof.
  unfold stylesStep, initMobileMenu, createMobileMenuToggle, addMobileMenuStyles.
  run_js.
  destruct (header (page w)) as [h|]; [|now left].
  destruct (nav w); [|now left].
  destruct (menuToggle w); simpl; [now left|].
  destruct (existsb (String.eqb "mobile-menu-styles") (styles w)) eqn:E; simpl;
    destruct (headerContainer h) as [[|]|]; simpl; try (now left);
    right; exists "mobile-menu-styles"; (split; [now left|]);
    (split; [now apply not_in_styles | reflexivity]).
Qed.

Lemma initScrollToTop_stylesStep (w : World) : stylesStep w (after initScrollToTop w).
Proof.
  unfold stylesStep, initScrollToTop, createScrollToTopButton, addScrollToTopStyles,
    handleScroll.
  unfold after, tryCatch, bind, ret, modify, addEventListener.
  destruct (scrollButton w) as [b|] eqn:B.
  - simpl. rewrite B.
    destruct (Qgtb (scrollPosition (viewport w)) (inject_Z CONFIG.SCROLL_TO_TOP_THRESHOLD));
      now left.
  - destruct (existsb (String.eqb "scroll-to-top-styles") (styles w)) eqn:E; simpl;
      destruct (Qgtb (scrollPosition (viewport w)) (inject_Z CONFIG.SCROLL_TO_TOP_THRESHOLD));
      simpl; try (now left);
      right; exists "scroll-to-top-styles"; (split; [now right|]);
      (split; [now apply not_in_styles | reflexivity]).
Qed.

Lemma initializeFeatures_styles (w : World) :
  exists w1 w2,
    stylesStep w w1 /\ stylesStep w1 w2 /\
    styles (after initializeFeatures w) = styles w2.
Proof.
  assert (K1 : keeps styles initSmoothScrolling).
  { apply keeps_tryCatch; [reflexivity|].
    apply keeps_bind; [intro; reflexivity|]. intro links.
    apply keeps_forEach. intro. apply keeps_addEventListener. }
  assert (K3 : keeps styles initLazyLoading).
  { apply keeps_tryCatch; [reflexivity|]. intro w0.
    destruct (images w0); [reflexivity|].
    destruct (hasIntersectionObserver (page w0)).
    - apply (@keeps_forEach _ _ styles). intros x w1. reflexivity.
    - apply (@keeps_forEach _ _ styles). apply loadImage_keeps_styles. }
  assert (K5 : keeps styles initFormValidation).
  { apply keeps_tryCatch; [reflexivity|]. intro w0.
    destruct (form w0); [|reflexivity].
    apply (@keeps_bind _ _ _ styles); [apply keeps_addEventListener|]. intros _.
    apply keeps_forEach. intro x.
    apply keeps_bind; [apply keeps_addEventListener|].
    intros _. apply keeps_addEventListener. }
  assert (K6 : keeps styles initKeyboardAccessibility).
  { intro w0. unfold initKeyboardAccessibility. run_js.
    now destruct (skipLink (page w0)). }
  pose (wa := after initSmoothScrolling w).
  pose (wb := after initMobileMenu wa).
  pose (wc := after initLazyLoading wb).
  pose (wd := after initScrollToTop wc).
  assert (E : after initializeFeatures w =
              after (consoleLog successLog)
                (after initKeyboardAccessibility (after initFormValidation wd))).
  { unfold after at 1. unfold initializeFeatures, tryCatch.
    erewrite bind_run
      by (apply neverThrows_run; apply tryCatch_neverThrows).
    erewrite bind_run
      by (apply neverThrows_run; apply tryCatch_neverThrows).
    erewrite bind_run
      by (apply neverThrows_run; apply tryCatch_neverThrows).
    erewrite bind_run
      by (apply neverThrows_run; apply tryCatch_neverThrows).
    erewrite bind_run
      by (apply neverThrows_run; apply tryCatch_neverThrows).
    erewrite bind_run
      by (apply neverThrows_run; apply tryCatch_neverThrows).
    reflexivity. }
  assert (X : forall a a' b, styles a = styles a' -> stylesStep a b -> stylesStep a' b).
  { unfold stylesStep. intros a a' b Ea. now rewrite Ea. }
  exists wb, wd. split; [|split].
  - apply (X wa); [apply K1 | apply initMobileMenu_stylesStep].
  - apply (X wc); [apply K3 | apply initScrollToTop_stylesStep].
  - rewrite E. unfold after at 1 2 3. unfold consoleLog, modify. simpl.
    now rewrite K6, K5.
Qed.

Lemma stylesStep_NoDup (w w' : World) :
  stylesStep w w' ->
  (NoDup (styles w) -> NoDup (styles w')) /\
  (forall id, In id (styles w') ->
     In id (styles w) \/ id = "mobile-menu-styles" \/ id = "scroll-to-top-styles").
Proof.
  intros [E | (id & Hid & Hn & E)]; rewrite E.
  - auto.
  - split.
    + intro N. apply NoDup_app; [exact N | repeat constructor; intros [] | ].
      intros x Hx [<- | []]. contradiction.
    + intros x Hx. apply in_app_or in Hx. destruct Hx as [Hx | [<- | []]]; auto.
Qed.

(** However often [initializeFeatures] runs, no style block is in the
    document twice, and the only blocks it adds are the two of the
    script. *)
Theorem initializeFeatures_injects_styles_once (n : nat) (w : World) :
  NoDup (styles w) ->
  let w' := Nat.iter n (after initializeFeatures) w in
  NoDup (styles w') /\
  (forall id, In id (styles w') ->
     In id (styles w) \/ id = "mobile-menu-styles" \/ id = "scroll-to-top-styles").
Proof.
  intro N. induction n as [|n IH]; simpl; [auto|].
  destruct IH as (IH1 & IH2).
  destruct (initializeFeatures_styles (Nat.iter n (after initializeFeatures) w))
    as (w1 & w2 & S1 & S2 & E).
  destruct (stylesStep_NoDup S1) as (N1 & I1).
  destruct (stylesStep_NoDup S2) as (N2 & I2).
  rewrite E. split; [auto|].
  intros id H. destruct (I2 id H) as [H2 | H2]; [|auto].
  destruct (I1 id H2) as [H1 | H1]; auto.
Qed.

End StyleBlocks.

Lemma initializeFeatures_injects_styles_once_witness :
  NoDup (styles (Nat.iter 3 (after initializeFeatures) Sample.world)).
Proof.
  apply (@initializeFeatures_injects_styles_once 3 Sample.world). constructor.
Defined.

(* ================================================================== *)
(** * What the two patterns accept *)
(* ================================================================== *)

Section Patterns.

Lemma notSpaceOrAt_spec (c : N) :
  notSpaceOrAt c = true -> JsString.isWhiteSpace c = false /\ c <> 64%N.
Proof.
  unfold notSpaceOrAt. rewrite negb_true_iff, orb_false_iff.
  intros [H1 H2]. split; [exact H1|]. now apply N.eqb_neq.
Qed.

Lemma run_without_at (a : JsString.t) :
  forallb notSpaceOrAt a = true ->
  count_occ N.eq_dec a 64%N = 0 /\
  forallb (fun c => negb (JsString.isWhiteSpace c)) a = true.
Proof.
  induction a as [|c a IH]; simpl; [auto|].
  intro H. apply andb_true_iff in H. destruct H as [Hc Ha].
  destruct (notSpaceOrAt_spec c Hc) as (W & A). destruct (IH Ha) as (IH1 & IH2).
  rewrite W, IH2. split; [|reflexivity].
  destruct (N.eq_dec c 64); [contradiction | exact IH1].
Qed.

(** The email pattern accepts exactly the strings [local@domain.tld] made
    of three non-empty runs without white space and without [@]; so an
    accepted address has exactly one [@], no white space, a dot somewhere
    after the [@], and at least five code units. *)
Theorem emailRegex_accepts (v : JsString.t) :
  (RegExp.test emailRegex v = true <-> emailShaped v) /\
  (RegExp.test emailRegex v = true ->
   count_occ N.eq_dec v 64%N = 1 /\
   forallb (fun c => negb (JsString.isWhiteSpace c)) v = true /\
   (5 <= List.length v)%nat /\
   exists local rest, v = local ++ 64%N :: rest /\ In 46%N rest).
Proof.
  split; [apply emailRegex_shape|].
  intro H. apply emailRegex_shape in H.
  destruct H as (a & b & c & -> & Ha & Hb & Hc & Fa & Fb & Fc).
  destruct (run_without_at a Fa) as (Ca & Wa).
  destruct (run_without_at b Fb) as (Cb & Wb).
  destruct (run_without_at c Fc) as (Cc & Wc).
  split; [|split; [|split]].
  - rewrite !count_occ_app. simpl. rewrite Ca, Cb, Cc. reflexivity.
  - rewrite !forallb_app. simpl. now rewrite Wa, Wb, Wc.
  - rewrite !length_app. simpl.
    destruct a; [congruence|]. destruct b; [congruence|]. destruct c; [congruence|].
    simpl. lia.
  - exists a, (b ++ [46%N] ++ c). split; [reflexivity|].
    apply in_or_app. right. now left.
Qed.

(** The phone pattern accepts exactly the non-empty strings made of
    digits, white space, [+], [-] and parentheses; it asks for no digit. *)
Theorem phoneRegex_accepts (v : JsString.t) :
  RegExp.test phoneRegex v = true <->
  v <> [] /\ forall c, In c v -> phoneChar c = true.
Proof.
  unfold phoneRegex. rewrite RegExpFacts.test_plus_class, andb_true_iff, forallb_forall.
  split; intros [H1 H2]; (split; [|exact H2]).
  - intro E. subst v. discriminate H1.
  - destruct v; [congruence | reflexivity].
Qed.

End Patterns.

(* ================================================================== *)
(** * Wiring the form *)
(* ================================================================== *)

Section FormWiring.

Variable w : World.

Lemma wire_fields (l : list nat) :
  forall w0,
    forEach (fun input =>
               bind (addEventListener (TField input) "blur" HValidateField)
                    (fun _ => addEventListener (TField input) "input" HClearFieldError))
            l w0
    = (Normal tt,
       set_listeners
         (listeners w0 ++
          flat_map (fun input => [mkListener (TField input) "blur" HValidateField;
                                  mkListener (TField input) "input" HClearFieldError]) l)
         w0).
Proof.
  induction l as [|x l IH]; intro w0; simpl.
  - unfold ret. rewrite app_nil_r. now destruct w0.
  - unfold bind, addEventListener, modify. simpl. rewrite IH. simpl.
    now rewrite <- !app_assoc.
Qed.

(** The form feature is dormant without a contact form; with one it
    listens for the submission and, on every input and textarea of the
    form, for [blur] (validation) and [input] (clearing the error), and
    changes nothing else. *)
Theorem initFormValidation_wires_every_field :
  (form w = None -> initFormValidation w = (Normal tt, w)) /\
  (forall f, form w = Some f ->
     let w' := after initFormValidation w in
     result initFormValidation w = Normal tt /\
     In (mkListener TForm "submit" HFormSubmit) (listeners w') /\
     (forall i, (i < List.length (fields f))%nat ->
        In (mkListener (TField i) "blur" HValidateField) (listeners w') /\
        In (mkListener (TField i) "input" HClearFieldError) (listeners w')) /\
     set_listeners (listeners w) w' = w).
Proof.
  unfold initFormValidation, tryCatch. split.
  - intro H. cbv beta. rewrite H. reflexivity.
  - intros f H. unfold after, result. cbv beta. rewrite H.
    erewrite bind_run by reflexivity.
    rewrite wire_fields. simpl. split; [reflexivity|]. split; [|split].
    + apply in_or_app. left. apply in_or_app. right. now left.
    + intros i Hi.
      assert (S : In i (seq 0 (List.length (fields f)))) by (apply in_seq; lia).
      split; apply in_or_app; right; apply in_flat_map; exists i; simpl; auto.
    + unfold set_listeners. simpl. apply DomFacts.world_eta.
Qed.

End FormWiring.

(* ================================================================== *)
(** * Debounced handlers *)
(* ================================================================== *)

Section Debouncing.

Import Debounce.

Variable Args : Type.
Variable wait : Z.

(** What the closure keeps true between two events. *)
Let invariant (calls : list Args) (s : State Args) : Prop :=
  match timeoutId s with
  | None => scheduled s = []
  | Some id => exists a, scheduled s = [(id, wait, a)] /\ In a calls
  end /\
  (List.length (applied s) + List.length (scheduled s) <= List.length calls)%nat /\
  (forall a, In a (applied s) -> In a calls).

Lemma invariant_step (calls : list Args) (s : State Args) (e : Step Args) :
  invariant calls s -> invariant (calls ++ callsOf [e]) (step wait s e).
Proof.
  unfold invariant. intros (T & L & A).
  destruct e as [args | id]; simpl.
  - rewrite length_app. simpl. split; [|split].
    + exists args. split; [|apply in_or_app; right; now left].
      destruct (timeoutId s) as [id0|].
      * destruct T as (a & -> & _). simpl. now rewrite Nat.eqb_refl.
      * now rewrite T.
    + destruct (timeoutId s) as [id0|].
      * destruct T as (a & E & _). rewrite E in *. simpl in *.
        rewrite Nat.eqb_refl. simpl. rewrite ?length_app. simpl. lia.
      * rewrite T in *. simpl in *. rewrite ?length_app. simpl. lia.
    + intros a Ha. apply in_or_app. left. auto.
  - rewrite app_nil_r. unfold fire.
    destruct (timeoutId s) as [id0|] eqn:Ti.
    + destruct T as (a & E & Ia). rewrite E in *. simpl.
      destruct (Nat.eqb id id0) eqn:Q; simpl.
      * rewrite ?Q. simpl. split; [reflexivity|]. split.
        -- rewrite length_app. simpl in *. lia.
        -- intros x Hx. apply in_app_or in Hx. destruct Hx as [Hx | [<- | []]]; auto.
      * rewrite Ti, E. simpl. split; [exists a; auto|]. split; [exact L | exact A].
    + rewrite T in *. simpl. rewrite Ti, T. auto.
Qed.

Lemma invariant_run (trace : list (Step Args)) :
  forall calls s, invariant calls s -> invariant (calls ++ callsOf trace) (run wait trace s).
Proof.
  induction trace as [|e trace IH]; intros calls s H.
  - simpl. now rewrite app_nil_r.
  - change (run wait (e :: trace) s) with (run wait trace (step wait s e)).
    replace (calls ++ callsOf (e :: trace)) with ((calls ++ callsOf [e]) ++ callsOf trace).
    + apply IH. now apply invariant_step.
    + rewrite <- app_assoc. f_equal. unfold callsOf. simpl. now rewrite app_nil_r.
Qed.

(** However calls and timers interleave, a debounced function holds at
    most one timer, the one [timeoutId] names; the function it wraps is
    applied at most once per call, and only to arguments of a call made
    before. *)
Theorem debounce_keeps_one_timer (trace : list (Step Args)) (next : nat) :
  let s := run wait trace (fresh Args next) in
  (List.length (scheduled s) <= 1)%nat /\
  (timeoutId s = None <-> scheduled s = []) /\
  (List.length (applied s) + List.length (scheduled s)
   <= List.length (callsOf trace))%nat /\
  (forall a, In a (applied s) -> In a (callsOf trace)).
Proof.
  intro s.
  assert (I : invariant ([] ++ callsOf trace) s).
  { apply invariant_run. unfold invariant. simpl. split; [reflexivity|].
    split; [lia | intros a []]. }
  simpl in I. destruct I as (T & L & A).
  split; [|split; [|split; [exact L | exact A]]].
  - destruct (timeoutId s); [destruct T as (a & -> & _) | rewrite T]; simpl; lia.
  - destruct (timeoutId s) as [id|].
    + destruct T as (a & -> & _). split; discriminate.
    + tauto.
Qed.

Lemma run_app (t1 t2 : list (Step Args)) (s : State Args) :
  run wait (t1 ++ t2) s = run wait t2 (run wait t1 s).
Proof. unfold run. apply fold_left_app. Qed.

Lemma calls_apply_nothing (l : list Args) :
  forall s, applied (run wait (map (@Call Args) l) s) = applied s.
Proof.
  induction l as [|a l IH]; intro s; simpl; [reflexivity|].
  now rewrite IH.
Qed.

(** A burst of calls followed by the timer: the wrapped function runs
    once, with the arguments of the last call; the timers of the earlier
    calls were cancelled and do nothing when their time comes. *)
Theorem debounce_runs_last_call_once (earlier : list Args) (last : Args) (next : nat) :
  let s := run wait (map (@Call Args) (earlier ++ [last])) (fresh Args next) in
  exists id,
    timeoutId s = Some id /\
    scheduled s = [(id, wait, last)] /\
    applied s = [] /\
    applied (fire id s) = [last] /\
    scheduled (fire id s) = [] /\
    timeoutId (fire id s) = None /\
    forall id', id' <> id -> fire id' s = s.
Proof.
  intro s. unfold s. rewrite map_app, run_app. simpl.
  set (s0 := run wait (map (@Call Args) earlier) (fresh Args next)).
  assert (I : invariant ([] ++ callsOf (map (@Call Args) earlier)) s0).
  { apply invariant_run. unfold invariant. simpl. split; [reflexivity|].
    split; [lia | intros a []]. }
  destruct I as (T & _ & _).
  assert (A0 : applied s0 = []) by (unfold s0; now rewrite calls_apply_nothing).
  assert (Sch : scheduled (debounced wait last s0) = [(nextTimerId s0, wait, last)]).
  { unfold debounced. simpl. destruct (timeoutId s0) as [id0|].
    - destruct T as (a & -> & _). simpl. now rewrite Nat.eqb_refl.
    - now rewrite T. }
  exists (nextTimerId s0). split; [reflexivity|]. split; [exact Sch|].
  split; [exact A0|].
  unfold fire. rewrite Sch. simpl. rewrite Nat.eqb_refl. simpl. rewrite A0.
  simpl. repeat split.
  intros id' H. apply Nat.eqb_neq in H. now rewrite H.
Qed.

End Debouncing.
